(** * whilego: scanner and parser of the WHILE language

    A shallow embedding of [scanner.go] and [parser.go] of the package
    [whilego], and the properties of the scanner and the parser that the
    specification of the package states.

    Conventions of the embedding.
    - A [rune] is its code point, a [Z].
    - A Go [string] built by the scanner is kept as the list of the runes
      whose UTF-8 encoding it is ([bytes.Buffer.WriteRune] and [string(ch)]
      encode one rune each).
    - The [bufio.Reader] under the scanner is the list of runes it still has
      to deliver, with the one rune of push-back of [UnreadRune].
    - A Go pointer that may be [nil] is an [option].
    - A Go [error] that may be [nil] is an [option error].
    - The methods of [Scanner] and [Parser] mutate their receiver: they are
      computations of the state monad [M] over the receiver.  Loops whose
      number of iterations depends on the input take fuel; running out of
      fuel is [None], and [Scan_total] and [Parse_total] show that the fuel
      given by [scanWhitespace], [scanVariable] and [Parse] is always
      enough. *)

From Stdlib Require Import ZArith List String Ascii Bool Lia.
From stdpp Require Import gmap.
Import ListNotations.
Local Open Scope Z_scope.

(** ** Runes and literals *)

Definition rune := Z.

Definition rune_of (c : ascii) : rune := Z.of_N (N_of_ascii c).

(** The runes of an ASCII string literal of the source. *)
Definition runes (str : string) : list rune :=
  List.map rune_of (list_ascii_of_string str).

Arguments rune_of c%_char.

(** ** Tokens (scanner.go) *)

Inductive Token : Type :=
| ILLEGAL | EOF | WS
| VARIABLE | CONSTANT
| SEMICOLON | ASSIGN | NOTEQUAL
| PLUS | MINUS
| WHILE | DO | END.

Definition Token_eq_dec (a b : Token) : {a = b} + {a <> b}.
Proof. decide equality. Defined.

Definition Token_eqb (a b : Token) : bool :=
  if Token_eq_dec a b then true else false.

(** ** Errors

    [io_EOF] and [ErrInvalidUnreadRune] come from [bufio], [NumError] from
    [strconv].  [New msg] is [errors.New(msg)] and [fmt.Errorf(msg)] without
    arguments, [Wrap format e] is [fmt.Errorf(format, e)] with the one verb
    [%s].  The remaining constructors are the calls of [fmt.Errorf] with
    other arguments:
    - [ErrUnexpectedString buf]: "unexpected string: %s";
    - [ErrIndexMismatch a b]: "second variable index %d has to match the
      first one which is %d";
    - [ErrNotSign lit]: token %s has to be - or + sign;
    - [ErrNotOne lit]: there has to follow a 1 after +/-, got %s. *)

Inductive NumErrorKind : Type := ErrSyntax | ErrRange.

Inductive error : Type :=
| io_EOF
| ErrInvalidUnreadRune
| NumError (kind : NumErrorKind) (num : list rune)
| New (msg : string)
| Wrap (format : string) (cause : error)
| ErrUnexpectedString (buf : list rune)
| ErrIndexMismatch (a b : Z)
| ErrNotSign (lit : list rune)
| ErrNotOne (lit : list rune).

(** ** The state monad with fuel *)

Definition M (St A : Type) : Type := St -> option (A * St).

Definition ret {St A} (a : A) : M St A := fun st => Some (a, st).

Definition bind {St A B} (c : M St A) (k : A -> M St B) : M St B :=
  fun st => match c st with
            | Some (a, st') => k a st'
            | None => None
            end.

Definition get {St} : M St St := fun st => Some (st, st).

Definition out_of_fuel {St A} : M St A := fun _ => None.

Notation "'let*' x ':=' c1 'in' c2" := (bind c1 (fun x => c2))
  (at level 10, x name, c1 at level 100, c2 at level 200).
Notation "'let*' ' pat ':=' c1 'in' c2" :=
  (bind c1 (fun x => match x with pat => c2 end))
  (at level 10, pat pattern, c1 at level 100, c2 at level 200).

(** ** bufio.Reader

    [rest] is what the reader has still to deliver; [last] is the rune that
    [UnreadRune] would put back: it is set by a successful [ReadRune] and
    cleared by a failed one and by [UnreadRune]. *)

Record Reader : Type := mkReader { rest : list rune; last : option rune }.

Definition NewReader (input : list rune) : Reader :=
  {| rest := input; last := None |}.

Definition ReadRune (b : Reader) : (rune * option error) * Reader :=
  match rest b with
  | [] => ((0, Some io_EOF), {| rest := []; last := None |})
  | ch :: t => ((ch, None), {| rest := t; last := Some ch |})
  end.

Definition UnreadRune (b : Reader) : option error * Reader :=
  match last b with
  | None => (Some ErrInvalidUnreadRune, b)
  | Some ch => (None, {| rest := ch :: rest b; last := None |})
  end.

(** ** Scanner (scanner.go) *)

Definition isWhitespace (ch : rune) : bool :=
  (ch =? rune_of " ") || (ch =? rune_of "009") || (ch =? rune_of "010").

Definition isDigit (ch : rune) : bool :=
  (ch >=? rune_of "0") && (ch <=? rune_of "9").

Definition eof : rune := 0.

Record Scanner : Type := mkScanner { r : Reader }.

Definition NewScanner (input : list rune) : Scanner :=
  {| r := NewReader input |}.

Definition scanned : Type := Token * list rune * option error.

Definition read : M Scanner (rune * option error) :=
  fun s =>
    let '((ch, err), b) := ReadRune (r s) in
    match err with
    | Some e => Some ((eof, Some e), {| r := b |})
    | None => Some ((ch, None), {| r := b |})
    end.

Definition unread : M Scanner (option error) :=
  fun s => let '(err, b) := UnreadRune (r s) in Some (err, {| r := b |}).

Definition scanError (err : error) : scanned := (ILLEGAL, [], Some err).

(** The loop of [scanWhitespace].  [buf.WriteRune] of a [bytes.Buffer]
    returns no error, so its check in the source is dead. *)
Fixpoint scanWhitespace_loop (fuel : nat) (buf : list rune) : M Scanner scanned :=
  match fuel with
  | O => out_of_fuel
  | S fuel' =>
      let* '(ch, err) := read in
      match (if negb (ch =? eof) then err else None) with
      | Some e => ret (scanError (Wrap "error tokenizing whitespace: %s" e))
      | None =>
          if ch =? eof then ret (WS, buf, None)
          else if negb (isWhitespace ch) then
            let* err := unread in
            match err with
            | Some e => ret (scanError (Wrap "error tokenizing whitespace: %s" e))
            | None => ret (WS, buf, None)
            end
          else scanWhitespace_loop fuel' (buf ++ [ch])
      end
  end.

Definition scanWhitespace : M Scanner scanned :=
  let* '(ch, err) := read in
  match err with
  | Some e => ret (scanError (Wrap "error tokenizing whitespace: %s" e))
  | None =>
      let* s := get in
      scanWhitespace_loop (S (length (rest (r s)))) [ch]
  end.

Fixpoint scanVariable_loop (fuel : nat) (buf : list rune) : M Scanner scanned :=
  match fuel with
  | O => out_of_fuel
  | S fuel' =>
      let* '(ch, err) := read in
      match (if negb (ch =? eof) then err else None) with
      | Some e => ret (scanError (Wrap "error tokenizing whitespace: %s" e))
      | None =>
          if ch =? eof then ret (VARIABLE, buf, None)
          else if negb (isDigit ch) then
            let* err := unread in
            match err with
            | Some e => ret (scanError (Wrap "error tokenizing digit: %s" e))
            | None => ret (VARIABLE, buf, None)
            end
          else scanVariable_loop fuel' (buf ++ [ch])
      end
  end.

Definition scanVariable : M Scanner scanned :=
  let* err := unread in
  match err with
  | Some e => ret (scanError e)
  | None =>
      let* '(ch, err) := read in
      match err with
      | Some e => ret (scanError e)
      | None =>
          if negb (ch =? rune_of "x") then
            ret (scanError (New "variable does not start with x"))
          else
            let* s := get in
            scanVariable_loop (S (length (rest (r s)))) [ch]
      end
  end.

(** The loop of [scanString] ranges over the runes of [str]. *)
Fixpoint scanString_loop (expectedToken : Token) (str buf : list rune) : M Scanner scanned :=
  match str with
  | [] => ret (expectedToken, buf, None)
  | strCh :: str' =>
      let* '(ch, err) := read in
      match err with
      | Some e => ret (scanError e)
      | None =>
          if negb (ch =? strCh) then ret (scanError (ErrUnexpectedString buf))
          else scanString_loop expectedToken str' (buf ++ [ch])
      end
  end.

Definition scanString (expectedToken : Token) (str : list rune) : M Scanner scanned :=
  let* err := unread in
  match err with
  | Some e => ret (scanError e)
  | None => scanString_loop expectedToken str []
  end.

Definition Scan : M Scanner scanned :=
  let* '(ch, err) := read in
  match err with
  | Some e => ret (scanError (Wrap "error reading next character: %s" e))
  | None =>
      if isWhitespace ch then
        let* err := unread in
        match err with
        | Some e => ret (scanError (Wrap "error unreading character: %s" e))
        | None => scanWhitespace
        end
      else if ch =? eof then ret (EOF, [], None)
      else if ch =? rune_of "x" then scanVariable
      else if ch =? rune_of "0" then ret (CONSTANT, [ch], None)
      else if ch =? rune_of "1" then ret (CONSTANT, [ch], None)
      else if ch =? rune_of ":" then scanString ASSIGN (runes ":=")
      else if ch =? rune_of "!" then scanString NOTEQUAL (runes "!=")
      else if ch =? rune_of ";" then ret (SEMICOLON, [ch], None)
      else if ch =? rune_of "+" then ret (PLUS, [ch], None)
      else if ch =? rune_of "-" then ret (MINUS, [ch], None)
      else if ch =? rune_of "W" then scanString WHILE (runes "WHILE")
      else if ch =? rune_of "D" then scanString DO (runes "DO")
      else if ch =? rune_of "E" then scanString END (runes "END")
      else ret (ILLEGAL, [ch], None)
  end.

(** ** strconv.Atoi and strings.TrimPrefix

    The two library functions that [parseIncr] calls.  [Atoi] accepts an
    optional sign and decimal digits; a value that does not fit the type
    [int] is a range error.  [int] has [intSize] bits: 64 on the usual
    targets.  The literal of a VARIABLE token holds ASCII runes only, for
    which the bytes that [Atoi] ranges over are the runes. *)

Definition intSize : Z := 64.
Definition maxInt : Z := 2 ^ (intSize - 1) - 1.
Definition maxUint64 : Z := 2 ^ 64 - 1.

Fixpoint ParseUint_loop (n : Z) (str : list rune) : Z + NumErrorKind :=
  match str with
  | [] => inl n
  | c :: t =>
      if isDigit c then
        let n1 := n * 10 + (c - rune_of "0") in
        if n1 >? maxUint64 then inr ErrRange else ParseUint_loop n1 t
      else inr ErrSyntax
  end.

Definition Atoi (str : list rune) : Z * option error :=
  match str with
  | [] => (0, Some (NumError ErrSyntax str))
  | c :: t =>
      let neg := c =? rune_of "-" in
      let digits := if neg || (c =? rune_of "+") then t else str in
      match digits with
      | [] => (0, Some (NumError ErrSyntax str))
      | _ :: _ =>
          match ParseUint_loop 0 digits with
          | inr ErrSyntax => (0, Some (NumError ErrSyntax str))
          | inr ErrRange =>
              (if neg then - maxInt - 1 else maxInt, Some (NumError ErrRange str))
          | inl un =>
              if negb neg && (un >? maxInt) then
                (maxInt, Some (NumError ErrRange str))
              else if neg && (un >? maxInt + 1) then
                (- maxInt - 1, Some (NumError ErrRange str))
              else (if neg then - un else un, None)
          end
      end
  end.

(** Equality of Go strings, [lit != "1"] in [parseIncr]. *)
Fixpoint lit_eqb (a b : list rune) : bool :=
  match a, b with
  | [], [] => true
  | x :: a', y :: b' => (x =? y) && lit_eqb a' b'
  | _, _ => false
  end.

Definition TrimPrefix_x (str : list rune) : list rune :=
  match str with
  | c :: t => if c =? rune_of "x" then t else str
  | [] => str
  end.

(** ** The syntax tree (parser.go) *)

Inductive ExprType : Type := INVALID_EXPR | INCR_EXPR | SEQ_EXPR | WHILE_EXPR.

Record IncrExpr : Type := mkIncrExpr { incr_Variable : Z; incr_Decrement : bool }.

Inductive Expr : Type :=
  mkExpr (Type_ : ExprType) (IncrExpr_ : option IncrExpr)
         (SeqExpr_ : option SeqExpr) (WhileExpr_ : option WhileExpr)
with SeqExpr : Type :=
  mkSeqExpr (P1 P2 : option Expr)
with WhileExpr : Type :=
  mkWhileExpr (while_Variable : Z) (P : option Expr).

(** [Expr{}], the zero value. *)
Definition Expr_zero : Expr := mkExpr INVALID_EXPR None None None.

(** What the tests build with [makeIncrExpr] and [makeSeqExpr]. *)
Definition makeIncrExpr (v : Z) (dec : bool) : Expr :=
  mkExpr INCR_EXPR (Some (mkIncrExpr v dec)) None None.

Definition makeSeqExpr (p1 p2 : option Expr) : Expr :=
  mkExpr SEQ_EXPR None (Some (mkSeqExpr p1 p2)) None.

(** ** Parser (parser.go) *)

Record Parser : Type := mkParser {
  s : Scanner;
  buf_tok : Token;
  buf_lit : list rune;
  buf_n : Z
}.

Definition NewParser (input : list rune) : Parser :=
  {| s := NewScanner input; buf_tok := ILLEGAL; buf_lit := []; buf_n := 0 |}.

Definition scan : M Parser scanned :=
  fun p =>
    if negb (buf_n p =? 0) then
      Some ((buf_tok p, buf_lit p, None),
            {| s := s p; buf_tok := buf_tok p; buf_lit := buf_lit p; buf_n := 0 |})
    else
      match Scan (s p) with
      | None => None
      | Some ((tok, lit, err), sc) =>
          Some ((tok, lit, err),
                {| s := sc; buf_tok := tok; buf_lit := lit; buf_n := buf_n p |})
      end.

Definition unscan : M Parser unit :=
  fun p => Some (tt, {| s := s p; buf_tok := buf_tok p; buf_lit := buf_lit p; buf_n := 1 |}).

Definition scanIgnoreWhitespace : M Parser scanned :=
  let* '(tok, lit, err) := scan in
  match err with
  | Some e => ret (tok, lit, Some e)
  | None =>
      match tok with
      | WS => scan
      | _ => ret (tok, lit, err)
      end
  end.

Definition parseIncr : M Parser (option IncrExpr * option error) :=
  let* '(tok, lit, err) := scanIgnoreWhitespace in
  match err with
  | Some e => ret (None, Some (Wrap "error parsing left side variable: %s" e))
  | None =>
  if negb (Token_eqb tok VARIABLE) then
    ret (None, Some (New "initial token of increment has to be a variable"))
  else
  let '(firstVarNum, err) := Atoi (TrimPrefix_x lit) in
  match err with
  | Some e => ret (None, Some (Wrap "error parsing variable number: %s" e))
  | None =>
  let* '(tok, lit, err) := scanIgnoreWhitespace in
  match err with
  | Some e => ret (None, Some (Wrap "error parsing equal sign: %s" e))
  | None =>
  if negb (Token_eqb tok ASSIGN) then
    ret (None, Some (New "expected assignment operator after variable"))
  else
  let* '(tok, lit, err) := scanIgnoreWhitespace in
  match err with
  | Some e => ret (None, Some (Wrap "error parsing left side variable: %s" e))
  | None =>
  if negb (Token_eqb tok VARIABLE) then
    ret (None, Some (New "initial token of increment has to be a variable"))
  else
  let '(secondVarNum, err) := Atoi (TrimPrefix_x lit) in
  match err with
  | Some e => ret (None, Some (Wrap "error parsing variable number: %s" e))
  | None =>
  if negb (firstVarNum =? secondVarNum) then
    ret (None, Some (ErrIndexMismatch firstVarNum secondVarNum))
  else
  let* '(tok, lit, err) := scanIgnoreWhitespace in
  match err with
  | Some e => ret (None, Some (Wrap "error parsing increment/decrement: %s" e))
  | None =>
  match (match tok with
         | PLUS => Some false
         | MINUS => Some true
         | _ => None
         end) with
  | None => ret (None, Some (ErrNotSign lit))
  | Some dec =>
  let* '(tok, lit1, err) := scanIgnoreWhitespace in
  match err with
  | Some e =>
      ret (None, Some (Wrap "error parsing number after increment/decrement: %s" e))
  | None =>
  if negb (Token_eqb tok CONSTANT) || negb (lit_eqb lit1 (runes "1")) then
    ret (None, Some (ErrNotOne lit1))
  else
    ret (Some {| incr_Variable := firstVarNum; incr_Decrement := dec |}, None)
  end end end end end end end end.

(** [Parse] calls itself after a semicolon: it takes fuel, one unit for each
    call.  [Parse_after Parse ex1 expr] is the part of [Parse] from its
    second call of [scanIgnoreWhitespace] on, where [ex1] and [expr] are the
    local variables of these names and [Parse] is the recursive call. *)
Definition Parse_after (Parse : M Parser (option Expr * option error))
    (ex1 : Expr) (expr : option Expr) : M Parser (option Expr * option error) :=
  let* '(tok, _, err) := scanIgnoreWhitespace in
  if Token_eqb tok ILLEGAL || Token_eqb tok EOF then ret (expr, None)
  else
    match err with
    | Some e => ret (None, Some (Wrap "error tokenizing after ws: %s" e))
    | None =>
        if Token_eqb tok SEMICOLON then
          let* '(ex2, err) := Parse in
          match err with
          | Some e =>
              ret (None, Some (Wrap "no valid expression after semicolon: %s" e))
          | None =>
              ret (Some (mkExpr SEQ_EXPR None (Some (mkSeqExpr (Some ex1) ex2)) None),
                   None)
          end
        else ret (expr, None)
    end.

Fixpoint Parse_fuel (fuel : nat) : M Parser (option Expr * option error) :=
  match fuel with
  | O => out_of_fuel
  | S fuel' =>
      let* '(tok, _, err) := scanIgnoreWhitespace in
      match err with
      | Some e => ret (None, Some (Wrap "error tokenizing: %s" e))
      | None =>
          if Token_eqb tok VARIABLE then
            let* _ := unscan in
            let* '(incExpr, err) := parseIncr in
            match err with
            | Some e => ret (None, Some e)
            | None =>
                let ex1 := mkExpr INCR_EXPR incExpr None None in
                Parse_after (Parse_fuel fuel') ex1 (Some ex1)
            end
          else Parse_after (Parse_fuel fuel') Expr_zero None
      end
  end.

(** Every call of [Parse] but the first follows a semicolon read from the
    input, so one unit for each rune of the input and one more suffice. *)
Definition Parse : M Parser (option Expr * option error) :=
  let* p := get in
  Parse_fuel (S (length (rest (r (s p))))).

(** ** Source texts

    [decimal n] is the decimal numeral of a natural number [n], the text that
    the specification writes [{n}]; [incr_text n dec] is the statement
    [x{n} := x{n} + 1], with [-] for [+] when [dec] is set. *)

Fixpoint decimal_fuel (fuel : nat) (n : Z) : list rune :=
  match fuel with
  | O => []
  | S fuel' =>
      if n <? 10 then [rune_of "0" + n]
      else decimal_fuel fuel' (n / 10) ++ [rune_of "0" + n mod 10]
  end.

Definition decimal (n : Z) : list rune :=
  decimal_fuel (S (Z.to_nat (Z.log2 n))) n.

Definition incr_rhs (n : Z) (dec : bool) : list rune :=
  runes " := x" ++ decimal n ++ runes (if dec then " - 1" else " + 1").

Definition incr_text (n : Z) (dec : bool) : list rune :=
  runes "x" ++ decimal n ++ incr_rhs n dec.

(** ** Interpreter *)

Module Interpreter.

(** Modelled from the spec: the interpreter, which the repository does not
    have yet (its TODO lists it as open).  The statements are the three
    variants of section 3 of the specification, the environment maps a
    variable index to its value and reads an unset variable as 0, and [run]
    follows the three rules of section 4.3.  A loop may not terminate:
    [run] takes fuel, one unit for each nested call. *)
Inductive Statement : Type :=
| Increment (v : Z) (dec : bool)
| Sequence (p1 p2 : Statement)
| While (v : Z) (body : Statement).

(** Modelled from the spec: reading a variable of the environment, an
    unset one as 0. *)
Definition value (env : gmap Z Z) (v : Z) : Z := default 0 (env !! v).

(** Modelled from the spec: the rules of section 4.3 for the three
    statements; decrementing saturates at zero. *)
Fixpoint run (fuel : nat) (stmt : Statement) (env : gmap Z Z) : option (gmap Z Z) :=
  match fuel with
  | O => None
  | S fuel' =>
      match stmt with
      | Increment v dec =>
          Some (<[v := if dec then Z.max (value env v - 1) 0 else value env v + 1]> env)
      | Sequence p1 p2 =>
          match run fuel' p1 env with
          | Some env1 => run fuel' p2 env1
          | None => None
          end
      | While v body =>
          if value env v =? 0 then Some env
          else
            match run fuel' body env with
            | Some env1 => run fuel' (While v body) env1
            | None => None
            end
      end
  end.

End Interpreter.

(** * Vocabulary of the properties *)

(** A scanner that has [input] to deliver and [l] to put back. *)
Definition scanner_at (input : list rune) (l : option rune) : Scanner :=
  {| r := {| rest := input; last := l |} |}.

(** Where a loop of the scanner leaves the reader when it stops before [t]:
    at the end of the input, after a NUL rune (the scanner's [eof], which
    the loop reads and does not put back), or before any other rune. *)
Definition after_run (t : list rune) : Scanner :=
  match t with
  | [] => scanner_at [] None
  | c :: t' => if c =? eof then scanner_at t' (Some c) else scanner_at (c :: t') None
  end.

(** [t] is empty or starts with a rune that is not of the class. *)
Definition stops (class : rune -> bool) (t : list rune) : Prop :=
  match t with
  | [] => True
  | c :: _ => class c = false
  end.

(** The tokens that [Scan] reads with [scanString], with their literals. *)
Definition multi_rune_tokens : list (Token * list rune) :=
  [ (ASSIGN, runes ":="); (NOTEQUAL, runes "!="); (WHILE, runes "WHILE");
    (DO, runes "DO"); (END, runes "END") ].

(** [wp c st Q]: the computation [c] run from [st] has fuel enough, and its
    result and final state satisfy [Q]. *)
Definition wp {St A} (c : M St A) (st : St) (Q : A -> St -> Prop) : Prop :=
  exists a st', c st = Some (a, st') /\ Q a st'.

(** What every call of [Scan] guarantees on an input of [n] runes: it does
    not leave more than it found, an error comes with ILLEGAL only, and a
    SEMICOLON has consumed a rune. *)
Definition scan_post (n : nat) (res : scanned) (sc : Scanner) : Prop :=
  let '(tok, _, err) := res in
  (length (rest (r sc)) <= n)%nat
  /\ (err <> None -> tok = ILLEGAL)
  /\ (tok = SEMICOLON -> (length (rest (r sc)) < n)%nat).

(** The same for the loops, which run after a first rune has been read. *)
Definition loop_post (n : nat) (res : scanned) (sc : Scanner) : Prop :=
  let '(tok, _, err) := res in
  (length (rest (r sc)) <= n)%nat
  /\ (err <> None -> tok = ILLEGAL)
  /\ tok <> SEMICOLON.

(** The number of runes that the parser has still to read. *)
Definition plen (p : Parser) : nat := length (rest (r (s p))).

(** What [scan] and [scanIgnoreWhitespace] guarantee from the parser [p]:
    the buffer holds the token returned and is marked empty. *)
Definition token_post (p : Parser) (res : scanned) (p' : Parser) : Prop :=
  let '(tok, lit, err) := res in
  (plen p' <= plen p)%nat
  /\ buf_n p' = 0 /\ buf_tok p' = tok /\ buf_lit p' = lit
  /\ (err <> None -> tok = ILLEGAL)
  /\ (buf_n p = 0 -> tok = SEMICOLON -> (plen p' < plen p)%nat).

(** What [parseIncr] guarantees from the parser [p]. *)
Definition steady (p : Parser) {A} (_ : A) (p' : Parser) : Prop :=
  (plen p' <= plen p)%nat /\ buf_n p' = 0.

(** One step of reading a decimal numeral from the left. *)
Definition digit_step (a : Z) (c : rune) : Z := a * 10 + (c - rune_of "0").

(** A parser by its fields. *)
Definition parser_at (input : list rune) (l : option rune)
    (tok : Token) (lit : list rune) (n : Z) : Parser :=
  {| s := scanner_at input l; buf_tok := tok; buf_lit := lit; buf_n := n |}.

(** The operator of an increment or a decrement. *)
Definition sign (dec : bool) : rune := if dec then rune_of "-" else rune_of "+".

(** A parser that has nothing in its buffer and [input] to read. *)
Definition fresh_over (input : list rune) (p : Parser) : Prop :=
  buf_n p = 0 /\ rest (r (s p)) = input.

(** ** Vocabulary of the further properties *)

(** The input starts with a rune of the class. *)
Definition first_is (class : rune -> bool) (input : list rune) : Prop :=
  match input with
  | c :: _ => class c = true
  | [] => False
  end.

(** The runes with which a token of the language starts: whitespace, NUL
    and the cases of the switch of [Scan]. *)
Definition known_first (c : rune) : bool :=
  isWhitespace c || existsb (Z.eqb c) (eof :: runes "x01:!;+-WDE").

(** What a call of [Scan] on [input] gives.  With an error: the ILLEGAL
    token and the empty literal, progress on a non-empty input, and the
    input is at its end or started a token of several runes.  Without one:
    the literal is the text consumed, up to one NUL rune [z] consumed after
    it; it is empty for the EOF token only; the token is WS exactly when the
    input starts with whitespace, and then the whitespace ends where the
    token ends; the literal of a VARIABLE is [x] and digits; and the token
    is ILLEGAL for a rune that starts no token only, which is the literal. *)
Definition scan_full (input : list rune) (res : scanned) (sc : Scanner) : Prop :=
  let '(tok, lit, err) := res in
  match err with
  | Some _ =>
      tok = ILLEGAL /\ lit = []
      /\ (length (rest (r sc)) <= length input)%nat
      /\ (input <> [] -> (length (rest (r sc)) < length input)%nat)
      /\ (input = []
          \/ exists tk c str t, input = c :: t /\ In (tk, c :: str) multi_rune_tokens)
  | None =>
      exists z,
        input = lit ++ z ++ rest (r sc)
        /\ (z = [] \/ z = [eof])
        /\ (tok = EOF -> lit = [] /\ z = [eof])
        /\ (tok <> EOF -> lit <> [])
        /\ (tok = WS <-> first_is isWhitespace input)
        /\ (tok = WS -> stops isWhitespace (z ++ rest (r sc)))
        /\ (tok = VARIABLE ->
            exists ds, lit = rune_of "x" :: ds
                       /\ Forall (fun c => isDigit c = true) ds)
        /\ (tok = ILLEGAL ->
            exists c t, input = c :: t /\ known_first c = false
                        /\ lit = [c] /\ sc = scanner_at t (Some c))
  end.

(** The text of an increment in free form: [g0] to [g4] are the gaps
    between its tokens, [d1] and [d2] the digits of its two variables. *)
Definition incr_free (g0 d1 g1 g2 d2 g3 : list rune) (dec : bool)
    (g4 : list rune) : list rune :=
  g0 ++ rune_of "x" :: d1 ++ g1 ++ runes ":=" ++ g2 ++ rune_of "x" :: d2
     ++ g3 ++ sign dec :: g4 ++ [rune_of "1"].

(** The text of a program of one statement and more: the increments
    [x{n} := x{n} + 1] or [- 1], with [ ; ] between them; and the tree of
    sequences that nests to the right. *)
Fixpoint program_text (st : Z * bool) (more : list (Z * bool)) : list rune :=
  match more with
  | [] => incr_text (fst st) (snd st)
  | st' :: more' =>
      incr_text (fst st) (snd st) ++ runes " ; " ++ program_text st' more'
  end.

Fixpoint program_expr (st : Z * bool) (more : list (Z * bool)) : Expr :=
  match more with
  | [] => makeIncrExpr (fst st) (snd st)
  | st' :: more' =>
      makeSeqExpr (Some (makeIncrExpr (fst st) (snd st)))
                  (Some (program_expr st' more'))
  end.

(** The expressions that [Parse] builds: the tag says which field is set.
    An increment holds an index that fits [int]; a sequence holds as first
    child an increment or the zero [Expr], and as second child nothing or an
    expression of this kind again.  No expression is a WHILE_EXPR. *)
Inductive parsed : Expr -> Prop :=
| parsed_incr v dec :
    0 <= v <= maxInt -> parsed (makeIncrExpr v dec)
| parsed_seq e1 ex2 :
    (e1 = Expr_zero
     \/ exists v dec, 0 <= v <= maxInt /\ e1 = makeIncrExpr v dec) ->
    (forall e2, ex2 = Some e2 -> parsed e2) ->
    parsed (makeSeqExpr (Some e1) ex2).

(** A VARIABLE in the buffer has a literal that the scanner built: [x] and
    digits. *)
Definition variable_buffer (p : Parser) : Prop :=
  buf_tok p = VARIABLE ->
  exists ds, buf_lit p = rune_of "x" :: ds
             /\ Forall (fun c => isDigit c = true) ds.

(** * Tests

    The cases of scanner_test.go and parser_test.go that the properties below
    generalise, and a run of the interpreter. *)

(** The loop of TestMultipleTokens: the tokens of [n] calls of [Scan]. *)
Fixpoint scan_tokens (n : nat) (sc : Scanner) : list Token :=
  match n with
  | O => []
  | S n' =>
      match Scan sc with
      | Some ((tok, _, _), sc') => tok :: scan_tokens n' sc'
      | None => []
      end
  end.

(** The first token of each input of TestSingleToken. *)
Example TestSingleToken :
  List.map (fun input => scan_tokens 1 (NewScanner input))
    [ [eof]; runes "   "; runes "x0"; runes "x1"; runes "x42"; runes "0";
      runes "1"; runes ";"; runes ":="; runes "!="; runes "+"; runes "-";
      runes "WHILE"; runes "DO"; runes "END"; runes ":!"; runes "!!" ]
  = [ [EOF]; [WS]; [VARIABLE]; [VARIABLE]; [VARIABLE]; [CONSTANT];
      [CONSTANT]; [SEMICOLON]; [ASSIGN]; [NOTEQUAL]; [PLUS]; [MINUS];
      [WHILE]; [DO]; [END]; [ILLEGAL]; [ILLEGAL] ].
Proof. reflexivity. Qed.

Example TestMultipleTokens :
  scan_tokens 21 (NewScanner (runes "WHILE x1 != 0 DO x1 := x1 - 1 END"))
  = [ WHILE; WS; VARIABLE; WS; NOTEQUAL; WS; CONSTANT; WS; DO; WS;
      VARIABLE; WS; ASSIGN; WS; VARIABLE; WS; MINUS; WS; CONSTANT; WS; END ].
Proof. reflexivity. Qed.

Example Scan_x42 :
  Scan (NewScanner (runes "x42 := x42 + 1"))
  = Some ((VARIABLE, runes "x42", None),
          {| r := {| rest := runes " := x42 + 1"; last := None |} |}).
Proof. reflexivity. Qed.

(** The tests of parser_test.go. *)
Example TestParse_Increment_x1 :
  option_map fst (Parse (NewParser (runes "x1 := x1 + 1")))
  = Some (Some (makeIncrExpr 1 false), None).
Proof. reflexivity. Qed.

Example TestParse_Decrement_x42 :
  option_map fst (Parse (NewParser (runes "x42 := x42 - 1")))
  = Some (Some (makeIncrExpr 42 true), None).
Proof. reflexivity. Qed.

Example TestParse_sequence :
  option_map fst (Parse (NewParser (runes "x1 := x1 + 1 ; x1 := x1 - 1")))
  = Some (Some (makeSeqExpr (Some (makeIncrExpr 1 false))
                            (Some (makeIncrExpr 1 true))), None).
Proof. reflexivity. Qed.

Example incr_text_42 : incr_text 42 true = runes "x42 := x42 - 1".
Proof. reflexivity. Qed.

Example run_countdown :
  option_map (fun env => Interpreter.value env 2)
    (Interpreter.run 10 (Interpreter.While 2 (Interpreter.Increment 2 true))
       (<[2 := 3]> ∅))
  = Some 0.
Proof. reflexivity. Qed.

(** * Properties *)

(** ** The monad and the reader *)

Lemma bind_Some {St A B} (c : M St A) (k : A -> M St B) st a st' :
  c st = Some (a, st') -> bind c k st = k a st'.
Proof. unfold bind. intros ->. reflexivity. Qed.

Lemma bind_step {St A B} (c : M St A) (k : A -> M St B) st a st' res :
  c st = Some (a, st') -> k a st' = res -> bind c k st = res.
Proof. intros Hc <-. apply bind_Some, Hc. Qed.

Lemma scanner_at_eta sc : sc = scanner_at (rest (r sc)) (last (r sc)).
Proof. destruct sc as [[? ?]]. reflexivity. Qed.

Lemma read_cons ch t l :
  read (scanner_at (ch :: t) l) = Some ((ch, None), scanner_at t (Some ch)).
Proof. reflexivity. Qed.

Lemma read_nil l :
  read (scanner_at [] l) = Some ((eof, Some io_EOF), scanner_at [] None).
Proof. reflexivity. Qed.

Lemma unread_Some ch t :
  unread (scanner_at t (Some ch)) = Some (None, scanner_at (ch :: t) None).
Proof. reflexivity. Qed.

Lemma isWhitespace_not_eof ch : isWhitespace ch = true -> (ch =? eof) = false.
Proof.
  unfold isWhitespace, eof, rune_of. simpl. intros H.
  destruct (Z.eqb_spec ch 0) as [->|]; [discriminate H | reflexivity].
Qed.

Lemma isDigit_not_eof ch : isDigit ch = true -> (ch =? eof) = false.
Proof.
  unfold isDigit, eof, rune_of. simpl. intros H.
  destruct (Z.eqb_spec ch 0) as [->|]; [discriminate H | reflexivity].
Qed.

(** ** Runs of whitespace and of digits *)

Lemma scanWhitespace_loop_run w : forall t fuel buf l,
  Forall (fun c => isWhitespace c = true) w ->
  stops isWhitespace t ->
  (length w < fuel)%nat ->
  scanWhitespace_loop fuel buf (scanner_at (w ++ t) l)
  = Some ((WS, buf ++ w, None), after_run t).
Proof.
  induction w as [|a w IH]; intros t fuel buf l Hw Ht Hfuel;
    destruct fuel as [|fuel]; try (simpl in Hfuel; lia).
  - rewrite app_nil_r. destruct t as [|c t]; [reflexivity|].
    simpl in Ht. simpl app. cbn [scanWhitespace_loop].
    rewrite (bind_Some _ _ _ _ _ (read_cons c t l)).
    unfold after_run. destruct (c =? eof); [reflexivity|].
    cbn [negb]. rewrite Ht. cbn [negb].
    rewrite (bind_Some _ _ _ _ _ (unread_Some c t)). reflexivity.
  - inversion Hw as [|? ? Ha Hw']; subst.
    simpl app. cbn [scanWhitespace_loop].
    rewrite (bind_Some _ _ _ _ _ (read_cons a (w ++ t) l)).
    rewrite (isWhitespace_not_eof a Ha), Ha. cbn [negb].
    rewrite (IH t fuel (buf ++ [a]) (Some a) Hw' Ht) by (simpl in Hfuel; lia).
    rewrite <- app_assoc. reflexivity.
Qed.

Lemma scanVariable_loop_run w : forall t fuel buf l,
  Forall (fun c => isDigit c = true) w ->
  stops isDigit t ->
  (length w < fuel)%nat ->
  scanVariable_loop fuel buf (scanner_at (w ++ t) l)
  = Some ((VARIABLE, buf ++ w, None), after_run t).
Proof.
  induction w as [|a w IH]; intros t fuel buf l Hw Ht Hfuel;
    destruct fuel as [|fuel]; try (simpl in Hfuel; lia).
  - rewrite app_nil_r. destruct t as [|c t]; [reflexivity|].
    simpl in Ht. simpl app. cbn [scanVariable_loop].
    rewrite (bind_Some _ _ _ _ _ (read_cons c t l)).
    unfold after_run. destruct (c =? eof); [reflexivity|].
    cbn [negb]. rewrite Ht. cbn [negb].
    rewrite (bind_Some _ _ _ _ _ (unread_Some c t)). reflexivity.
  - inversion Hw as [|? ? Ha Hw']; subst.
    simpl app. cbn [scanVariable_loop].
    rewrite (bind_Some _ _ _ _ _ (read_cons a (w ++ t) l)).
    rewrite (isDigit_not_eof a Ha), Ha. cbn [negb].
    rewrite (IH t fuel (buf ++ [a]) (Some a) Hw' Ht) by (simpl in Hfuel; lia).
    rewrite <- app_assoc. reflexivity.
Qed.

Lemma Scan_whitespace c w t l :
  isWhitespace c = true ->
  Forall (fun c => isWhitespace c = true) w ->
  stops isWhitespace t ->
  Scan (scanner_at (c :: w ++ t) l) = Some ((WS, c :: w, None), after_run t).
Proof.
  intros Hc Hw Ht. unfold Scan.
  rewrite (bind_Some _ _ _ _ _ (read_cons c (w ++ t) l)). rewrite Hc.
  rewrite (bind_Some _ _ _ _ _ (unread_Some c (w ++ t))).
  unfold scanWhitespace.
  rewrite (bind_Some _ _ _ _ _ (read_cons c (w ++ t) None)).
  unfold get at 1. unfold bind at 1.
  apply (scanWhitespace_loop_run w t _ [c] (Some c) Hw Ht).
  cbn [r rest scanner_at]. rewrite length_app. lia.
Qed.

Lemma Scan_variable w t l :
  Forall (fun c => isDigit c = true) w ->
  stops isDigit t ->
  Scan (scanner_at (rune_of "x" :: w ++ t) l)
  = Some ((VARIABLE, rune_of "x" :: w, None), after_run t).
Proof.
  intros Hw Ht. unfold Scan.
  rewrite (bind_Some _ _ _ _ _ (read_cons _ (w ++ t) l)).
  change (isWhitespace (rune_of "x")) with false.
  change (rune_of "x" =? eof) with false.
  change (rune_of "x" =? rune_of "x") with true. cbv iota.
  unfold scanVariable.
  rewrite (bind_Some _ _ _ _ _ (unread_Some _ (w ++ t))).
  rewrite (bind_Some _ _ _ _ _ (read_cons _ (w ++ t) None)).
  change (rune_of "x" =? rune_of "x") with true. cbn [negb].
  unfold get at 1. unfold bind at 1.
  apply (scanVariable_loop_run w t _ [rune_of "x"] (Some (rune_of "x")) Hw Ht).
  cbn [r rest scanner_at]. rewrite length_app. lia.
Qed.

(** ** Literals of several runes *)

Lemma scanString_loop_mismatch tok str : forall buf input l,
  (forall t, input <> str ++ t) ->
  exists e sc,
    scanString_loop tok str buf (scanner_at input l) = Some (scanError e, sc).
Proof.
  induction str as [|strCh str IH]; intros buf input l Hno.
  - exfalso. apply (Hno input). reflexivity.
  - cbn [scanString_loop]. destruct input as [|ch input].
    + rewrite (bind_Some _ _ _ _ _ (read_nil l)). eexists _, _. reflexivity.
    + rewrite (bind_Some _ _ _ _ _ (read_cons ch input l)).
      destruct (Z.eqb_spec ch strCh) as [->|Hne]; cbn [negb].
      * apply IH. intros t ->. apply (Hno t). reflexivity.
      * eexists _, _. reflexivity.
Qed.

Lemma scanString_loop_match tok str : forall buf t l,
  exists sc,
    scanString_loop tok str buf (scanner_at (str ++ t) l)
    = Some ((tok, buf ++ str, None), sc) /\ rest (r sc) = t.
Proof.
  induction str as [|strCh str IH]; intros buf t l.
  - eexists. rewrite app_nil_r. split; reflexivity.
  - cbn [scanString_loop]. simpl app.
    rewrite (bind_Some _ _ _ _ _ (read_cons strCh (str ++ t) l)).
    rewrite Z.eqb_refl. cbn [negb].
    destruct (IH (buf ++ [strCh]) t (Some strCh)) as [sc [Hsc Hrest]].
    exists sc. rewrite Hsc, <- app_assoc. split; [reflexivity | exact Hrest].
Qed.

Lemma Scan_multi_rune tok c str t l :
  In (tok, c :: str) multi_rune_tokens ->
  Scan (scanner_at (c :: t) l)
  = scanString_loop tok (c :: str) [] (scanner_at (c :: t) None).
Proof.
  intros Hin. simpl in Hin.
  repeat (destruct Hin as [Heq | Hin];
          [injection Heq as <- <- <-; reflexivity|]).
  contradiction.
Qed.

(** ** Weakest preconditions *)

Lemma wp_ret {St A} (a : A) (st : St) (Q : A -> St -> Prop) :
  Q a st -> wp (ret a) st Q.
Proof. intros H. exists a, st. split; [reflexivity | exact H]. Qed.

Lemma wp_bind {St A B} (c : M St A) (k : A -> M St B) st (Q : B -> St -> Prop) :
  wp c st (fun a st' => wp (k a) st' Q) -> wp (bind c k) st Q.
Proof.
  intros (a & st' & Hc & b & st'' & Hk & HQ).
  exists b, st''. rewrite (bind_Some _ _ _ _ _ Hc). split; assumption.
Qed.

Lemma wp_conseq {St A} (c : M St A) st (Q Q' : A -> St -> Prop) :
  wp c st Q -> (forall a st', Q a st' -> Q' a st') -> wp c st Q'.
Proof.
  intros (a & st' & Hc & HQ) Himp. exists a, st'. split; [exact Hc | auto].
Qed.

Lemma wp_get {St} (st : St) (Q : St -> St -> Prop) : Q st st -> wp get st Q.
Proof. intros H. exists st, st. split; [reflexivity | exact H]. Qed.

Lemma wp_eq {St A} (c : M St A) st a st' (Q : A -> St -> Prop) :
  c st = Some (a, st') -> Q a st' -> wp c st Q.
Proof. intros Hc HQ. exists a, st'. split; assumption. Qed.

(** ** The scanner returns, and never moves backwards *)

Lemma loop_post_scan n res sc : loop_post n res sc -> scan_post (S n) res sc.
Proof.
  destruct res as [[tok lit] err]. intros (Hlen & Herr & Htok).
  repeat split; [lia | exact Herr | intros; contradiction].
Qed.

Ltac loop_post_now :=
  repeat split; cbn [r rest scanner_at length];
  first [lia | discriminate | intros; congruence].

Lemma scanWhitespace_loop_total fuel : forall buf input l,
  (length input < fuel)%nat ->
  wp (scanWhitespace_loop fuel buf) (scanner_at input l) (loop_post (length input)).
Proof.
  induction fuel as [|fuel IH]; intros buf input l Hfuel; [lia|].
  cbn [scanWhitespace_loop]. apply wp_bind.
  destruct input as [|c t].
  - eapply wp_eq; [apply read_nil|]; cbv beta iota. apply wp_ret. loop_post_now.
  - eapply wp_eq; [apply read_cons|]; cbv beta iota.
    destruct (c =? eof); cbn [negb]; [apply wp_ret; loop_post_now|].
    destruct (isWhitespace c); cbn [negb].
    + eapply wp_conseq; [apply IH; simpl in Hfuel; lia|].
      intros [[tok lit] err] sc (Hlen & Herr & Htok).
      repeat split; cbn [length]; [lia | exact Herr | exact Htok].
    + apply wp_bind. eapply wp_eq; [apply unread_Some|]; cbv beta iota.
      apply wp_ret. loop_post_now.
Qed.

Lemma scanVariable_loop_total fuel : forall buf input l,
  (length input < fuel)%nat ->
  wp (scanVariable_loop fuel buf) (scanner_at input l) (loop_post (length input)).
Proof.
  induction fuel as [|fuel IH]; intros buf input l Hfuel; [lia|].
  cbn [scanVariable_loop]. apply wp_bind.
  destruct input as [|c t].
  - eapply wp_eq; [apply read_nil|]; cbv beta iota. apply wp_ret. loop_post_now.
  - eapply wp_eq; [apply read_cons|]; cbv beta iota.
    destruct (c =? eof); cbn [negb]; [apply wp_ret; loop_post_now|].
    destruct (isDigit c); cbn [negb].
    + eapply wp_conseq; [apply IH; simpl in Hfuel; lia|].
      intros [[tok lit] err] sc (Hlen & Herr & Htok).
      repeat split; cbn [length]; [lia | exact Herr | exact Htok].
    + apply wp_bind. eapply wp_eq; [apply unread_Some|]; cbv beta iota.
      apply wp_ret. loop_post_now.
Qed.

Lemma scanString_loop_total tok str : forall buf input l,
  tok <> SEMICOLON ->
  wp (scanString_loop tok str buf) (scanner_at input l) (loop_post (length input)).
Proof.
  induction str as [|strCh str IH]; intros buf input l Htok.
  - apply wp_ret. repeat split; [cbn; lia | intros H; contradiction | exact Htok].
  - cbn [scanString_loop]. apply wp_bind.
    destruct input as [|c t].
    + eapply wp_eq; [apply read_nil|]; cbv beta iota. apply wp_ret. loop_post_now.
    + eapply wp_eq; [apply read_cons|]; cbv beta iota.
      destruct (c =? strCh); cbn [negb].
      * eapply wp_conseq; [apply IH; exact Htok|].
        intros [[tok' lit] err] sc (Hlen & Herr & Htok').
        repeat split; cbn [length]; [lia | exact Herr | exact Htok'].
      * apply wp_ret. loop_post_now.
Qed.

Lemma scanString_total tok str c t :
  tok <> SEMICOLON ->
  wp (scanString tok str) (scanner_at t (Some c)) (scan_post (S (length t))).
Proof.
  intros Htok. unfold scanString. apply wp_bind.
  eapply wp_eq; [apply unread_Some|]; cbv beta iota.
  eapply wp_conseq; [apply (scanString_loop_total tok str [] (c :: t) None Htok)|].
  intros [[tok' lit] err] sc (Hlen & Herr & Htok').
  repeat split; [exact Hlen | exact Herr | intros; contradiction].
Qed.

Lemma Scan_total input l :
  wp Scan (scanner_at input l) (scan_post (length input)).
Proof.
  unfold Scan. apply wp_bind. destruct input as [|c t].
  - eapply wp_eq; [apply read_nil|]; cbv beta iota. apply wp_ret.
    repeat split; [cbn; lia | discriminate].
  - eapply wp_eq; [apply read_cons|]; cbv beta iota.
    destruct (isWhitespace c).
    { apply wp_bind. eapply wp_eq; [apply unread_Some|]; cbv beta iota.
      unfold scanWhitespace. apply wp_bind. eapply wp_eq; [apply read_cons|]; cbv beta iota.
      apply wp_bind. apply wp_get. cbv beta iota.
      eapply wp_conseq;
        [apply scanWhitespace_loop_total; cbn [r rest scanner_at]; lia|].
      intros res sc Hpost. apply loop_post_scan. exact Hpost. }
    repeat match goal with
      | |- wp (if ?b then _ else _) _ _ => destruct b eqn:?
      end;
      try (apply wp_ret; repeat split; cbn [r rest scanner_at length];
           first [lia | discriminate | intros; congruence]);
      try (apply scanString_total; discriminate).
    unfold scanVariable. apply wp_bind. eapply wp_eq; [apply unread_Some|]; cbv beta iota.
    apply wp_bind. eapply wp_eq; [apply read_cons|]; cbv beta iota.
    match goal with H : (c =? rune_of "x") = true |- _ => rewrite H end.
    cbn [negb]. apply wp_bind. apply wp_get. cbv beta iota.
    eapply wp_conseq;
      [apply scanVariable_loop_total; cbn [r rest scanner_at]; lia|].
    intros res sc Hpost. apply loop_post_scan. exact Hpost.
Qed.

(** ** The parser returns *)

Lemma scan_total p : wp scan p (token_post p).
Proof.
  unfold scan, wp. destruct (Z.eqb_spec (buf_n p) 0) as [Hn|Hn]; cbn [negb].
  - destruct (Scan_total (rest (r (s p))) (last (r (s p))))
      as ([[tok lit] err] & sc & HScan & Hlen & Herr & Hsemi).
    rewrite <- scanner_at_eta in HScan. rewrite HScan.
    eexists _, _. split; [reflexivity|].
    unfold token_post, plen. cbn [s buf_n buf_tok buf_lit]. repeat split; auto.
  - eexists _, _. split; [reflexivity|].
    unfold token_post, plen. cbn [s buf_n buf_tok buf_lit].
    repeat split; try lia; intros; congruence.
Qed.

Lemma scanIgnoreWhitespace_total p : wp scanIgnoreWhitespace p (token_post p).
Proof.
  unfold scanIgnoreWhitespace. apply wp_bind.
  eapply wp_conseq; [apply scan_total|].
  intros [[tok lit] err] p1 (Hlen & Hn & Htok & Hlit & Herr & Hsemi).
  destruct err as [e|].
  { apply wp_ret. repeat split; auto. }
  destruct tok; try (apply wp_ret; repeat split; auto).
  eapply wp_conseq; [apply scan_total|].
  intros [[tok2 lit2] err2] p2 (Hlen2 & Hn2 & Htok2 & Hlit2 & Herr2 & Hsemi2).
  repeat split; auto; try lia.
  intros _ Heq. specialize (Hsemi2 Hn Heq). lia.
Qed.

Ltac scan_step p' H :=
  apply wp_bind; eapply wp_conseq; [apply scanIgnoreWhitespace_total|];
  let tok := fresh "tok" in
  let lit := fresh "lit" in
  let err := fresh "err" in
  intros [[tok lit] err] p' H; destruct H as (? & ? & _ & _ & _ & _);
  destruct err;
  [apply wp_ret; split; [lia | assumption] |].

Lemma parseIncr_total p : wp parseIncr p (steady p).
Proof.
  unfold parseIncr.
  scan_step p1 Hscan1.
  destruct (Token_eqb _ VARIABLE); cbn [negb];
    [| apply wp_ret; split; [lia | assumption]].
  destruct (Atoi _) as [firstVarNum [e|]];
    [apply wp_ret; split; [lia | assumption] |].
  scan_step p2 Hscan2.
  destruct (Token_eqb _ ASSIGN); cbn [negb];
    [| apply wp_ret; split; [lia | assumption]].
  scan_step p3 Hscan3.
  destruct (Token_eqb _ VARIABLE); cbn [negb];
    [| apply wp_ret; split; [lia | assumption]].
  destruct (Atoi _) as [secondVarNum [e|]];
    [apply wp_ret; split; [lia | assumption] |].
  destruct (firstVarNum =? secondVarNum); cbn [negb];
    [| apply wp_ret; split; [lia | assumption]].
  scan_step p4 Hscan4.
  match goal with
  | |- wp (match ?d with Some _ => _ | None => _ end) _ _ =>
      destruct d; [| apply wp_ret; split; [lia | assumption]]
  end.
  scan_step p5 Hscan5.
  match goal with
  | |- wp (if ?b then _ else _) _ _ => destruct b
  end; apply wp_ret; split; first [lia | assumption].
Qed.

Lemma Parse_after_total rec ex1 expr p :
  buf_n p = 0 ->
  (forall p', (plen p' < plen p)%nat -> wp rec p' (fun _ _ => True)) ->
  wp (Parse_after rec ex1 expr) p (fun _ _ => True).
Proof.
  intros Hn Hrec. unfold Parse_after. apply wp_bind.
  eapply wp_conseq; [apply scanIgnoreWhitespace_total|].
  intros [[tok lit] err] p1 (Hlen & Hn1 & _ & _ & Herr & Hsemi).
  destruct (Token_eqb tok ILLEGAL || Token_eqb tok EOF); [apply wp_ret; exact I|].
  destruct err; [apply wp_ret; exact I|].
  unfold Token_eqb. destruct (Token_eq_dec tok SEMICOLON) as [Heq|];
    [| apply wp_ret; exact I].
  apply wp_bind. eapply wp_conseq; [apply Hrec; auto|].
  intros [ex2 [e|]] p2 _; apply wp_ret; exact I.
Qed.

Lemma Parse_fuel_total fuel : forall p,
  (plen p < fuel)%nat -> wp (Parse_fuel fuel) p (fun _ _ => True).
Proof.
  induction fuel as [|fuel IH]; intros p Hfuel; [lia|].
  cbn [Parse_fuel]. apply wp_bind.
  eapply wp_conseq; [apply scanIgnoreWhitespace_total|].
  intros [[tok lit] err] p1 (Hlen & Hn1 & _ & _ & _ & _).
  destruct err; [apply wp_ret; exact I|].
  destruct (Token_eqb tok VARIABLE).
  - apply wp_bind. eapply wp_eq; [reflexivity|]. cbv beta.
    apply wp_bind. eapply wp_conseq; [apply parseIncr_total|].
    intros [incExpr [e|]] p2 [Hlen2 Hn2]; [apply wp_ret; exact I|].
    unfold plen in Hlen2. cbn [s] in Hlen2. fold (plen p1) in Hlen2.
    apply Parse_after_total; [exact Hn2|].
    intros p' Hp'. apply IH. fold (plen p2) in Hlen2. lia.
  - apply Parse_after_total; [exact Hn1|].
    intros p' Hp'. apply IH. lia.
Qed.

Theorem Parse_total p : wp Parse p (fun _ _ => True).
Proof.
  unfold Parse. apply wp_bind. apply wp_get. cbv beta.
  apply Parse_fuel_total. unfold plen. lia.
Qed.

(** ** Decimal numerals and Atoi *)

Lemma isDigit_spec c : isDigit c = true <-> 48 <= c <= 57.
Proof.
  unfold isDigit. change (rune_of "0") with 48. change (rune_of "9") with 57.
  rewrite andb_true_iff, Z.geb_le, Z.leb_le. reflexivity.
Qed.

Lemma decimal_fuel_digits fuel : forall n,
  0 <= n -> Forall (fun c => isDigit c = true) (decimal_fuel fuel n).
Proof.
  induction fuel as [|fuel IH]; intros n Hn; cbn [decimal_fuel]; [constructor|].
  change (rune_of "0") with 48.
  destruct (Z.ltb_spec n 10).
  - repeat constructor. apply isDigit_spec. lia.
  - apply Forall_app. split.
    + apply IH. apply Z.div_pos; lia.
    + repeat constructor. apply isDigit_spec.
      pose proof (Z.mod_pos_bound n 10). lia.
Qed.

Lemma decimal_fuel_value fuel : forall n,
  0 <= n < 2 ^ Z.of_nat fuel ->
  fold_left digit_step (decimal_fuel fuel n) 0 = n.
Proof.
  induction fuel as [|fuel IH]; intros n Hn.
  - change (2 ^ Z.of_nat 0) with 1 in Hn. assert (n = 0) as -> by lia. reflexivity.
  - rewrite Nat2Z.inj_succ, Z.pow_succ_r in Hn by lia.
    cbn [decimal_fuel]. change (rune_of "0") with 48.
    destruct (Z.ltb_spec n 10).
    + cbn [fold_left]. unfold digit_step. change (rune_of "0") with 48. lia.
    + rewrite fold_left_app. cbn [fold_left]. rewrite IH.
      * unfold digit_step. change (rune_of "0") with 48.
        pose proof (Z.div_mod n 10). lia.
      * split; [apply Z.div_pos; lia|].
        apply Z.div_lt_upper_bound; lia.
Qed.

Lemma decimal_fuel_nonempty fuel n : decimal_fuel (S fuel) n <> [].
Proof.
  cbn [decimal_fuel]. destruct (n <? 10); [discriminate|].
  intros H. apply app_eq_nil in H. destruct H as [_ H]. discriminate H.
Qed.

Lemma decimal_digits n : 0 <= n -> Forall (fun c => isDigit c = true) (decimal n).
Proof. apply decimal_fuel_digits. Qed.

Lemma decimal_value n : 0 <= n -> fold_left digit_step (decimal n) 0 = n.
Proof.
  intros Hn. apply decimal_fuel_value. split; [exact Hn|].
  rewrite Nat2Z.inj_succ, Z2Nat.id by apply Z.log2_nonneg.
  destruct (Z.eq_dec n 0) as [->|]; [reflexivity|].
  apply Z.log2_spec. lia.
Qed.

Lemma decimal_nonempty n : decimal n <> [].
Proof. apply decimal_fuel_nonempty. Qed.

Lemma digit_step_mono ds : forall a,
  Forall (fun c => isDigit c = true) ds -> 0 <= a ->
  a <= fold_left digit_step ds a.
Proof.
  induction ds as [|c ds IH]; intros a Hds Ha; cbn [fold_left]; [lia|].
  inversion Hds as [|? ? Hc Hds']; subst. apply isDigit_spec in Hc.
  assert (a <= digit_step a c)
    by (unfold digit_step; change (rune_of "0") with 48; lia).
  specialize (IH (digit_step a c) Hds'). lia.
Qed.

Lemma ParseUint_loop_digits ds : forall a,
  Forall (fun c => isDigit c = true) ds -> 0 <= a <= maxUint64 ->
  ParseUint_loop a ds
  = if fold_left digit_step ds a >? maxUint64 then inr ErrRange
    else inl (fold_left digit_step ds a).
Proof.
  induction ds as [|c ds IH]; intros a Hds Ha; cbn [ParseUint_loop fold_left].
  - destruct (Z.gtb_spec a maxUint64); [lia | reflexivity].
  - inversion Hds as [|? ? Hc Hds']; subst. rewrite Hc.
    fold (digit_step a c). apply isDigit_spec in Hc.
    assert (0 <= digit_step a c)
      by (unfold digit_step; change (rune_of "0") with 48; lia).
    destruct (Z.gtb_spec (digit_step a c) maxUint64) as [Hbig|Hsmall].
    + pose proof (digit_step_mono ds (digit_step a c) Hds' ltac:(lia)).
      destruct (Z.gtb_spec (fold_left digit_step ds (digit_step a c)) maxUint64);
        [reflexivity | lia].
    + apply IH; [exact Hds' | lia].
Qed.

Lemma ParseUint_loop_decimal n :
  0 <= n ->
  ParseUint_loop 0 (decimal n) = if n >? maxUint64 then inr ErrRange else inl n.
Proof.
  intros Hn. rewrite ParseUint_loop_digits.
  - rewrite decimal_value by exact Hn. reflexivity.
  - apply decimal_digits. exact Hn.
  - unfold maxUint64. lia.
Qed.

Lemma maxInt_lt_maxUint64 : maxInt < maxUint64.
Proof. reflexivity. Qed.

(** [Atoi] reads back the numeral of a number that fits [int]. *)
Lemma Atoi_decimal n : 0 <= n <= maxInt -> Atoi (decimal n) = (n, None).
Proof.
  intros Hn. pose proof maxInt_lt_maxUint64 as Hmax.
  pose proof (ParseUint_loop_decimal n ltac:(lia)) as HP.
  pose proof (decimal_digits n ltac:(lia)) as Hds.
  pose proof (decimal_nonempty n) as Hne.
  destruct (decimal n) as [|c t]; [contradiction|].
  inversion Hds as [|? ? Hc _]; subst. apply isDigit_spec in Hc.
  unfold Atoi. change (rune_of "-") with 45. change (rune_of "+") with 43.
  destruct (Z.eqb_spec c 45); [lia|]. destruct (Z.eqb_spec c 43); [lia|].
  cbn [orb negb andb]. rewrite HP.
  destruct (Z.gtb_spec n maxUint64); [lia|].
  destruct (Z.gtb_spec n maxInt); [lia | reflexivity].
Qed.

(** It refuses the numeral of a number that does not. *)
Lemma Atoi_decimal_range n :
  maxInt < n -> Atoi (decimal n) = (maxInt, Some (NumError ErrRange (decimal n))).
Proof.
  intros Hn. assert (0 <= maxInt) by (vm_compute; discriminate).
  pose proof (ParseUint_loop_decimal n ltac:(lia)) as HP.
  pose proof (decimal_digits n ltac:(lia)) as Hds.
  pose proof (decimal_nonempty n) as Hne.
  destruct (decimal n) as [|c t]; [contradiction|].
  inversion Hds as [|? ? Hc _]; subst. apply isDigit_spec in Hc.
  unfold Atoi. change (rune_of "-") with 45. change (rune_of "+") with 43.
  destruct (Z.eqb_spec c 45); [lia|]. destruct (Z.eqb_spec c 43); [lia|].
  cbn [orb negb andb]. rewrite HP.
  destruct (Z.gtb_spec n maxUint64); [reflexivity|].
  destruct (Z.gtb_spec n maxInt); [reflexivity | lia].
Qed.

(** ** What a call depends on

    [Scan] starts with a [read]: it depends on the runes that the reader has
    still to deliver and not on the rune that could be put back.  [Parse]
    with an empty buffer starts with a [Scan]: it does not depend on the
    token that the buffer held. *)

Lemma bind_ext {St A B} (c : M St A) (k : A -> M St B) st1 st2 :
  c st1 = c st2 -> bind c k st1 = bind c k st2.
Proof. unfold bind. intros ->. reflexivity. Qed.

Lemma bind_inv {St A B} (c : M St A) (k : A -> M St B) st res :
  bind c k st = Some res ->
  exists a st', c st = Some (a, st') /\ k a st' = Some res.
Proof.
  unfold bind. destruct (c st) as [[a st']|]; [|discriminate].
  intros H. exists a, st'. split; [reflexivity | exact H].
Qed.

Lemma read_ext sc1 sc2 : rest (r sc1) = rest (r sc2) -> read sc1 = read sc2.
Proof. unfold read, ReadRune. intros ->. reflexivity. Qed.

Lemma Scan_ext sc1 sc2 : rest (r sc1) = rest (r sc2) -> Scan sc1 = Scan sc2.
Proof. intros H. unfold Scan. apply bind_ext, read_ext, H. Qed.

Lemma scan_ext p1 p2 :
  buf_n p1 = 0 -> buf_n p2 = 0 -> rest (r (s p1)) = rest (r (s p2)) ->
  scan p1 = scan p2.
Proof.
  intros H1 H2 H. unfold scan. rewrite H1, H2, (Scan_ext (s p1) (s p2) H).
  reflexivity.
Qed.

Lemma scanIgnoreWhitespace_ext p1 p2 :
  buf_n p1 = 0 -> buf_n p2 = 0 -> rest (r (s p1)) = rest (r (s p2)) ->
  scanIgnoreWhitespace p1 = scanIgnoreWhitespace p2.
Proof.
  intros H1 H2 H. unfold scanIgnoreWhitespace. apply bind_ext, scan_ext; assumption.
Qed.

Lemma Parse_after_ext rec ex1 expr p1 p2 :
  buf_n p1 = 0 -> buf_n p2 = 0 -> rest (r (s p1)) = rest (r (s p2)) ->
  Parse_after rec ex1 expr p1 = Parse_after rec ex1 expr p2.
Proof.
  intros H1 H2 H. unfold Parse_after.
  apply bind_ext, scanIgnoreWhitespace_ext; assumption.
Qed.

Lemma Parse_fuel_ext fuel p1 p2 :
  buf_n p1 = 0 -> buf_n p2 = 0 -> rest (r (s p1)) = rest (r (s p2)) ->
  Parse_fuel fuel p1 = Parse_fuel fuel p2.
Proof.
  intros H1 H2 H. destruct fuel as [|fuel]; [reflexivity|].
  cbn [Parse_fuel]. apply bind_ext, scanIgnoreWhitespace_ext; assumption.
Qed.

(** More fuel does not change a result. *)
Lemma Parse_after_mono rec1 rec2 ex1 expr p res :
  (forall p' res', rec1 p' = Some res' -> rec2 p' = Some res') ->
  Parse_after rec1 ex1 expr p = Some res ->
  Parse_after rec2 ex1 expr p = Some res.
Proof.
  intros Hrec H. unfold Parse_after in *.
  apply bind_inv in H as ([[tok lit] err] & p1 & Hs & Hk).
  rewrite (bind_Some _ _ _ _ _ Hs).
  destruct (Token_eqb tok ILLEGAL || Token_eqb tok EOF); [exact Hk|].
  destruct err; [exact Hk|].
  destruct (Token_eqb tok SEMICOLON); [|exact Hk].
  apply bind_inv in Hk as ([ex2 err2] & p2 & Hr & Hk).
  rewrite (bind_Some _ _ _ _ _ (Hrec _ _ Hr)). exact Hk.
Qed.

Lemma Parse_fuel_mono fuel1 : forall fuel2 p res,
  (fuel1 <= fuel2)%nat ->
  Parse_fuel fuel1 p = Some res -> Parse_fuel fuel2 p = Some res.
Proof.
  induction fuel1 as [|fuel1 IH]; intros fuel2 p res Hle H; [discriminate H|].
  destruct fuel2 as [|fuel2]; [lia|].
  assert (Hrec : forall p' res',
             Parse_fuel fuel1 p' = Some res' -> Parse_fuel fuel2 p' = Some res')
    by (intros p' res'; apply IH; lia).
  cbn [Parse_fuel] in *.
  apply bind_inv in H as ([[tok lit] err] & p1 & Hs & Hk).
  rewrite (bind_Some _ _ _ _ _ Hs).
  destruct err; [exact Hk|].
  destruct (Token_eqb tok VARIABLE).
  - apply bind_inv in Hk as ([] & p2 & Hu & Hk).
    rewrite (bind_Some _ _ _ _ _ Hu).
    apply bind_inv in Hk as ([incExpr err2] & p3 & Hi & Hk).
    rewrite (bind_Some _ _ _ _ _ Hi).
    destruct err2; [exact Hk|].
    eapply Parse_after_mono; [exact Hrec | exact Hk].
  - eapply Parse_after_mono; [exact Hrec | exact Hk].
Qed.

(** ** Parsing the text of an increment *)

Lemma scan_empty_buffer input l bt bl tok lit err input' l' :
  Scan (scanner_at input l) = Some ((tok, lit, err), scanner_at input' l') ->
  scan (parser_at input l bt bl 0)
  = Some ((tok, lit, err), parser_at input' l' tok lit 0).
Proof. intros H. unfold scan. cbn. rewrite H. reflexivity. Qed.

Lemma scanIgnoreWhitespace_buffered input l tok lit :
  tok <> WS ->
  scanIgnoreWhitespace (parser_at input l tok lit 1)
  = Some ((tok, lit, None), parser_at input l tok lit 0).
Proof. intros H. destruct tok; try reflexivity. contradiction. Qed.

Lemma scanIgnoreWhitespace_token input l bt bl tok lit err input' l' :
  tok <> WS ->
  Scan (scanner_at input l) = Some ((tok, lit, err), scanner_at input' l') ->
  scanIgnoreWhitespace (parser_at input l bt bl 0)
  = Some ((tok, lit, err), parser_at input' l' tok lit 0).
Proof.
  intros Hws H. unfold scanIgnoreWhitespace.
  rewrite (bind_Some _ _ _ _ _ (scan_empty_buffer _ _ bt bl _ _ _ _ _ H)).
  destruct err; [reflexivity|]. destruct tok; try reflexivity. contradiction.
Qed.

(** One space, then a token. *)
Lemma scanIgnoreWhitespace_space c t l bt bl tok lit err input' l' :
  isWhitespace c = false -> c <> eof ->
  Scan (scanner_at (c :: t) None) = Some ((tok, lit, err), scanner_at input' l') ->
  scanIgnoreWhitespace (parser_at (rune_of " " :: c :: t) l bt bl 0)
  = Some ((tok, lit, err), parser_at input' l' tok lit 0).
Proof.
  intros Hc Hnul H. unfold scanIgnoreWhitespace.
  assert (Hws : Scan (scanner_at (rune_of " " :: c :: t) l)
                = Some ((WS, [rune_of " "], None), scanner_at (c :: t) None)).
  { change (rune_of " " :: c :: t) with (rune_of " " :: [] ++ c :: t).
    rewrite (Scan_whitespace (rune_of " ") [] (c :: t) l);
      [| reflexivity | constructor | exact Hc].
    unfold after_run. destruct (Z.eqb_spec c eof); [contradiction | reflexivity]. }
  rewrite (bind_Some _ _ _ _ _ (scan_empty_buffer _ _ bt bl _ _ _ _ _ Hws)).
  cbv beta iota.
  apply (scan_empty_buffer _ _ WS [rune_of " "] _ _ _ _ _ H).
Qed.

Lemma incr_rhs_app n dec suffix :
  incr_rhs n dec ++ suffix
  = rune_of " " :: rune_of ":" :: rune_of "=" :: rune_of " " :: rune_of "x"
      :: decimal n
      ++ rune_of " " :: sign dec :: rune_of " " :: rune_of "1" :: suffix.
Proof.
  unfold incr_rhs. rewrite <- !app_assoc. destruct dec; reflexivity.
Qed.

Lemma Scan_sign dec t l :
  Scan (scanner_at (sign dec :: t) l)
  = Some ((if dec then MINUS else PLUS, [sign dec], None),
          scanner_at t (Some (sign dec))).
Proof. destruct dec; reflexivity. Qed.

Lemma Scan_variable_space n t l :
  0 <= n ->
  Scan (scanner_at (rune_of "x" :: decimal n ++ rune_of " " :: t) l)
  = Some ((VARIABLE, rune_of "x" :: decimal n, None),
          scanner_at (rune_of " " :: t) None).
Proof.
  intros Hn. apply (Scan_variable (decimal n) (rune_of " " :: t) l).
  - apply decimal_digits, Hn.
  - reflexivity.
Qed.

(** [parseIncr] on the text of an increment whose left variable [Parse] has
    read and put back. *)
Lemma parseIncr_text n dec suffix l :
  0 <= n <= maxInt ->
  parseIncr (parser_at (incr_rhs n dec ++ suffix) l
                       VARIABLE (rune_of "x" :: decimal n) 1)
  = Some ((Some (mkIncrExpr n dec), None),
          parser_at suffix (Some (rune_of "1")) CONSTANT [rune_of "1"] 0).
Proof.
  intros Hn. rewrite incr_rhs_app. unfold parseIncr.
  rewrite (bind_Some _ _ _ _ _
             (scanIgnoreWhitespace_buffered _ _ VARIABLE _ ltac:(discriminate))).
  change (Token_eqb VARIABLE VARIABLE) with true. cbn [negb].
  change (TrimPrefix_x (rune_of "x" :: decimal n)) with (decimal n).
  rewrite (Atoi_decimal n Hn).
  eapply bind_step;
    [apply scanIgnoreWhitespace_space;
       [reflexivity | discriminate | reflexivity] |].
  cbv beta iota. change (Token_eqb ASSIGN ASSIGN) with true. cbn [negb].
  eapply bind_step;
    [apply scanIgnoreWhitespace_space;
       [reflexivity | discriminate | apply Scan_variable_space; lia] |].
  cbv beta iota. change (Token_eqb VARIABLE VARIABLE) with true. cbn [negb].
  change (TrimPrefix_x (rune_of "x" :: decimal n)) with (decimal n).
  rewrite (Atoi_decimal n Hn). rewrite Z.eqb_refl. cbn [negb].
  eapply bind_step;
    [apply scanIgnoreWhitespace_space;
       [destruct dec; reflexivity | destruct dec; discriminate | apply Scan_sign] |].
  cbv beta iota.
  destruct dec; cbv iota;
    (eapply bind_step;
       [apply scanIgnoreWhitespace_space;
          [reflexivity | discriminate | reflexivity] |]);
    reflexivity.
Qed.

(** [Parse] on a text that starts with an increment: the increment is
    [ex1], and [Parse] goes on with what follows it. *)
Lemma Parse_fuel_incr fuel n dec suffix :
  0 <= n <= maxInt ->
  Parse_fuel (S fuel) (NewParser (incr_text n dec ++ suffix))
  = Parse_after (Parse_fuel fuel) (makeIncrExpr n dec) (Some (makeIncrExpr n dec))
      (parser_at suffix (Some (rune_of "1")) CONSTANT [rune_of "1"] 0).
Proof.
  intros Hn. cbn [Parse_fuel].
  assert (Hfirst :
    scanIgnoreWhitespace (NewParser (incr_text n dec ++ suffix))
    = Some ((VARIABLE, rune_of "x" :: decimal n, None),
            parser_at (incr_rhs n dec ++ suffix) None
                      VARIABLE (rune_of "x" :: decimal n) 0)).
  { unfold incr_text, NewParser, NewScanner, NewReader.
    apply (scanIgnoreWhitespace_token _ None ILLEGAL []); [discriminate|].
    rewrite <- !app_assoc, (incr_rhs_app n dec suffix).
    change (runes "x") with [rune_of "x"]. cbn [app].
    apply Scan_variable_space. lia. }
  rewrite (bind_Some _ _ _ _ _ Hfirst).
  change (Token_eqb VARIABLE VARIABLE) with true. cbv iota.
  eapply bind_step; [reflexivity|].
  eapply bind_step; [apply (parseIncr_text n dec suffix None Hn)|].
  reflexivity.
Qed.

Lemma Parse_incr_suffix n dec suffix :
  0 <= n <= maxInt ->
  Parse (NewParser (incr_text n dec ++ suffix))
  = Parse_after (Parse_fuel (length (incr_text n dec ++ suffix)))
      (makeIncrExpr n dec) (Some (makeIncrExpr n dec))
      (parser_at suffix (Some (rune_of "1")) CONSTANT [rune_of "1"] 0).
Proof.
  intros Hn. unfold Parse. eapply bind_step; [reflexivity|]. cbv beta.
  cbn [rest r s NewParser NewScanner NewReader].
  apply Parse_fuel_incr, Hn.
Qed.

(** What [scanIgnoreWhitespace] returns is in the buffer, marked as read. *)
Lemma scanIgnoreWhitespace_buffer p tok lit err p' :
  scanIgnoreWhitespace p = Some ((tok, lit, err), p') ->
  buf_n p' = 0 /\ buf_tok p' = tok /\ buf_lit p' = lit
  /\ (err <> None -> tok = ILLEGAL).
Proof.
  intros H. destruct (scanIgnoreWhitespace_total p) as (res & p1 & H1 & Hpost).
  rewrite H in H1. injection H1 as <- <-.
  destruct Hpost as (_ & Hn & Htok & Hlit & Herr & _). auto.
Qed.

(** [Parse] on the text of an increment whose index does not fit [int]:
    [parseIncr] fails on the left variable with the range error of
    [strconv.Atoi]. *)
Lemma Parse_incr_out_of_range n dec suffix :
  maxInt < n ->
  exists p',
    Parse (NewParser (incr_text n dec ++ suffix))
    = Some ((None,
             Some (Wrap "error parsing variable number: %s"
                     (NumError ErrRange (decimal n)))), p').
Proof.
  intros Hn. assert (H0 : 0 <= maxInt) by (vm_compute; discriminate).
  eexists. unfold Parse. eapply bind_step; [reflexivity|]. cbv beta.
  cbn [Parse_fuel].
  assert (Hfirst :
    scanIgnoreWhitespace (NewParser (incr_text n dec ++ suffix))
    = Some ((VARIABLE, rune_of "x" :: decimal n, None),
            parser_at (incr_rhs n dec ++ suffix) None
                      VARIABLE (rune_of "x" :: decimal n) 0)).
  { unfold incr_text, NewParser, NewScanner, NewReader.
    apply (scanIgnoreWhitespace_token _ None ILLEGAL []); [discriminate|].
    rewrite <- !app_assoc, (incr_rhs_app n dec suffix).
    change (runes "x") with [rune_of "x"]. cbn [app].
    apply Scan_variable_space. lia. }
  eapply bind_step; [exact Hfirst|].
  cbv beta iota. change (Token_eqb VARIABLE VARIABLE) with true. cbv iota.
  eapply bind_step; [reflexivity|].
  eapply bind_step.
  { unfold parseIncr.
    eapply bind_step;
      [apply (scanIgnoreWhitespace_buffered (incr_rhs n dec ++ suffix) None
                VARIABLE (rune_of "x" :: decimal n) ltac:(discriminate))|].
    cbv beta iota. change (Token_eqb VARIABLE VARIABLE) with true. cbn [negb].
    change (TrimPrefix_x (rune_of "x" :: decimal n)) with (decimal n).
    rewrite (Atoi_decimal_range n Hn). reflexivity. }
  reflexivity.
Qed.

(** * The claims *)

(** ** C1

    C1, as the code has it: for every index [n] that fits the type [int]
    ([0 <= n <= maxInt], [maxInt] being 2^63 - 1), parsing the text
    [x{n} := x{n} + 1] succeeds and gives the node of type INCR_EXPR with
    variable [n] and [Decrement = false], and with [-] for [+] the node with
    [Decrement = true].  For every larger [n], [strconv.Atoi] reports a range
    error, and [Parse] returns this error and no node. *)
Theorem Parse_incr_text n dec :
  (0 <= n <= maxInt ->
   option_map fst (Parse (NewParser (incr_text n dec)))
   = Some (Some (makeIncrExpr n dec), None))
  /\ (maxInt < n ->
      option_map fst (Parse (NewParser (incr_text n dec)))
      = Some (None,
              Some (Wrap "error parsing variable number: %s"
                      (NumError ErrRange (decimal n))))).
Proof.
  split; intros Hn; rewrite <- (app_nil_r (incr_text n dec)).
  - rewrite (Parse_incr_suffix n dec [] Hn). reflexivity.
  - destruct (Parse_incr_out_of_range n dec [] Hn) as [p' ->]. reflexivity.
Qed.

Lemma Parse_incr_text_witness :
  (0 <= 42 <= maxInt
   /\ incr_text 42 true = runes "x42 := x42 - 1"
   /\ option_map fst (Parse (NewParser (incr_text 42 true)))
      = Some (Some (makeIncrExpr 42 true), None))
  /\ (maxInt < 2 ^ 64
      /\ incr_text (2 ^ 64) false
         = runes "x18446744073709551616 := x18446744073709551616 + 1"
      /\ option_map fst (Parse (NewParser (incr_text (2 ^ 64) false)))
         = Some (None,
                 Some (Wrap "error parsing variable number: %s"
                         (NumError ErrRange (decimal (2 ^ 64)))))).
Proof.
  assert (H : 0 <= 42 <= maxInt) by (vm_compute; split; discriminate).
  assert (H' : maxInt < 2 ^ 64) by reflexivity.
  split.
  - split; [exact H|]. split; [reflexivity|].
    apply (proj1 (Parse_incr_text 42 true) H).
  - split; [exact H'|]. split; [reflexivity|].
    apply (proj2 (Parse_incr_text (2 ^ 64) false) H').
Defined.

(** C1 as the specification states it, for every non-negative [n], fails at
    [n = 2^63]: [strconv.Atoi] reports that the index is out of range, and
    [Parse] returns this error and no node. *)
Lemma Parse_incr_text_out_of_range :
  incr_text (2 ^ 63) false
  = runes "x9223372036854775808 := x9223372036854775808 + 1"
  /\ option_map fst (Parse (NewParser (incr_text (2 ^ 63) false)))
     = Some (None,
             Some (Wrap "error parsing variable number: %s"
                        (NumError ErrRange (runes "9223372036854775808")))).
Proof. split; vm_compute; reflexivity. Qed.

(** ** C2 *)

(** The state in which [unscan] leaves a parser that has just scanned. *)
Lemma scanIgnoreWhitespace_unscan p tok lit :
  buf_n p = 0 -> buf_tok p = tok -> buf_lit p = lit -> tok <> WS ->
  scanIgnoreWhitespace
    {| s := s p; buf_tok := buf_tok p; buf_lit := buf_lit p; buf_n := 1 |}
  = Some ((tok, lit, None), p).
Proof.
  intros Hn <- <- Hws. destruct p as [sc bt bl n]. cbn in *. subst n.
  destruct bt; try reflexivity. contradiction.
Qed.

(** [Parse] on an input that starts with a variable is [parseIncr], as long
    as [parseIncr] fails. *)
Lemma Parse_parseIncr_error p lit1 p1 e p' :
  scanIgnoreWhitespace p = Some ((VARIABLE, lit1, None), p1) ->
  parseIncr {| s := s p1; buf_tok := buf_tok p1; buf_lit := buf_lit p1; buf_n := 1 |}
  = Some ((None, Some e), p') ->
  Parse p = Some ((None, Some e), p').
Proof.
  intros H1 Hincr. unfold Parse. eapply bind_step; [reflexivity|]. cbv beta.
  cbn [Parse_fuel]. eapply bind_step; [exact H1|]. cbv beta iota.
  change (Token_eqb VARIABLE VARIABLE) with true. cbv iota.
  eapply bind_step; [reflexivity|].
  eapply bind_step; [exact Hincr|]. reflexivity.
Qed.

Lemma parseIncr_mismatch p lit1 p1 lit2 p2 lit3 p3 a b :
  scanIgnoreWhitespace p = Some ((VARIABLE, lit1, None), p1) ->
  scanIgnoreWhitespace p1 = Some ((ASSIGN, lit2, None), p2) ->
  scanIgnoreWhitespace p2 = Some ((VARIABLE, lit3, None), p3) ->
  Atoi (TrimPrefix_x lit1) = (a, None) ->
  Atoi (TrimPrefix_x lit3) = (b, None) ->
  a <> b ->
  parseIncr p = Some ((None, Some (ErrIndexMismatch a b)), p3).
Proof.
  intros H1 H2 H3 Ha Hb Hne. unfold parseIncr.
  eapply bind_step; [exact H1|]. cbv beta iota.
  change (Token_eqb VARIABLE VARIABLE) with true. cbn [negb]. rewrite Ha.
  eapply bind_step; [exact H2|]. cbv beta iota.
  change (Token_eqb ASSIGN ASSIGN) with true. cbn [negb].
  eapply bind_step; [exact H3|]. cbv beta iota.
  change (Token_eqb VARIABLE VARIABLE) with true. cbn [negb]. rewrite Hb.
  destruct (Z.eqb_spec a b); [contradiction | reflexivity].
Qed.

Lemma Token_eqb_true a b : Token_eqb a b = true -> a = b.
Proof.
  unfold Token_eqb. destruct (Token_eq_dec a b); [auto | discriminate].
Qed.

(** A node comes out of [parseIncr] only after it has read a variable, the
    assignment operator and a variable, and [strconv.Atoi] has given the
    index of the node for both variables. *)
Lemma parseIncr_node p node err p' :
  parseIncr p = Some ((Some node, err), p') ->
  exists lit1 p1 lit2 p2 lit3 p3,
    scanIgnoreWhitespace p = Some ((VARIABLE, lit1, None), p1)
    /\ scanIgnoreWhitespace p1 = Some ((ASSIGN, lit2, None), p2)
    /\ scanIgnoreWhitespace p2 = Some ((VARIABLE, lit3, None), p3)
    /\ Atoi (TrimPrefix_x lit1) = (incr_Variable node, None)
    /\ Atoi (TrimPrefix_x lit3) = (incr_Variable node, None).
Proof.
  intros H. unfold parseIncr in H.
  apply bind_inv in H as ([[tok1 lit1] err1] & p1 & H1 & H).
  destruct err1; [discriminate H|].
  destruct (Token_eqb tok1 VARIABLE) eqn:E1; cbn [negb] in H; [|discriminate H].
  apply Token_eqb_true in E1. subst tok1.
  destruct (Atoi (TrimPrefix_x lit1)) as [a [e|]] eqn:Ha; [discriminate H|].
  apply bind_inv in H as ([[tok2 lit2] err2] & p2 & H2 & H).
  destruct err2; [discriminate H|].
  destruct (Token_eqb tok2 ASSIGN) eqn:E2; cbn [negb] in H; [|discriminate H].
  apply Token_eqb_true in E2. subst tok2.
  apply bind_inv in H as ([[tok3 lit3] err3] & p3 & H3 & H).
  destruct err3; [discriminate H|].
  destruct (Token_eqb tok3 VARIABLE) eqn:E3; cbn [negb] in H; [|discriminate H].
  apply Token_eqb_true in E3. subst tok3.
  destruct (Atoi (TrimPrefix_x lit3)) as [b [e|]] eqn:Hb; [discriminate H|].
  destruct (Z.eqb_spec a b) as [<-|]; cbn [negb] in H; [|discriminate H].
  exists lit1, p1, lit2, p2, lit3, p3.
  assert (Hnode : incr_Variable node = a).
  { apply bind_inv in H as ([[tok4 lit4] err4] & p4 & _ & H).
    destruct err4; [discriminate H|].
    destruct tok4; try discriminate H;
      apply bind_inv in H as ([[tok5 lit5] err5] & p5 & _ & H);
      (destruct err5; [discriminate H|]);
      destruct (negb (Token_eqb tok5 CONSTANT) || negb (lit_eqb lit5 (runes "1")));
      try discriminate H; injection H as <- _ _; reflexivity. }
  rewrite Hnode. auto.
Qed.

(** C2: take any input on which the parser reads a variable, the
    assignment operator and a variable, with the indices [a] and [b] that
    [strconv.Atoi] gives for the two variables.  When [a] and [b] differ,
    [parseIncr], and hence [Parse], returns an error and no node, and [Parse]
    returns an expression only when [a = b].  And on any input a node comes
    from [parseIncr] only when it has read a variable, the assignment
    operator and a variable, whose indices are both the index of the node. *)
Theorem parseIncr_index_mismatch p :
  (forall lit1 p1 lit2 p2 lit3 p3 a b,
     scanIgnoreWhitespace p = Some ((VARIABLE, lit1, None), p1) ->
     scanIgnoreWhitespace p1 = Some ((ASSIGN, lit2, None), p2) ->
     scanIgnoreWhitespace p2 = Some ((VARIABLE, lit3, None), p3) ->
     Atoi (TrimPrefix_x lit1) = (a, None) ->
     Atoi (TrimPrefix_x lit3) = (b, None) ->
     (a <> b ->
      parseIncr p = Some ((None, Some (ErrIndexMismatch a b)), p3)
      /\ Parse p = Some ((None, Some (ErrIndexMismatch a b)), p3))
     /\ (forall expr err p', Parse p = Some ((Some expr, err), p') -> a = b))
  /\ (forall node err p',
        parseIncr p = Some ((Some node, err), p') ->
        exists lit1 p1 lit2 p2 lit3 p3,
          scanIgnoreWhitespace p = Some ((VARIABLE, lit1, None), p1)
          /\ scanIgnoreWhitespace p1 = Some ((ASSIGN, lit2, None), p2)
          /\ scanIgnoreWhitespace p2 = Some ((VARIABLE, lit3, None), p3)
          /\ Atoi (TrimPrefix_x lit1) = (incr_Variable node, None)
          /\ Atoi (TrimPrefix_x lit3) = (incr_Variable node, None)).
Proof.
  split; [| apply parseIncr_node].
  intros lit1 p1 lit2 p2 lit3 p3 a b H1 H2 H3 Ha Hb.
  destruct (scanIgnoreWhitespace_buffer _ _ _ _ _ H1) as (Hn & Htok & Hlit & _).
  assert (H1' : scanIgnoreWhitespace
                  {| s := s p1; buf_tok := buf_tok p1; buf_lit := buf_lit p1;
                     buf_n := 1 |}
                = Some ((VARIABLE, lit1, None), p1))
    by (apply scanIgnoreWhitespace_unscan; auto; discriminate).
  assert (HParse : a <> b ->
                   Parse p = Some ((None, Some (ErrIndexMismatch a b)), p3)).
  { intros Hne. apply (Parse_parseIncr_error p lit1 p1 _ _ H1).
    apply (parseIncr_mismatch _ _ _ _ _ _ _ _ _ H1' H2 H3 Ha Hb Hne). }
  split.
  - intros Hne. split; [|exact (HParse Hne)].
    apply (parseIncr_mismatch _ _ _ _ _ _ _ _ _ H1 H2 H3 Ha Hb Hne).
  - intros expr err p' H. destruct (Z.eq_dec a b) as [Heq|Hne]; [exact Heq|].
    rewrite (HParse Hne) in H. discriminate H.
Qed.

Lemma parseIncr_index_mismatch_witness :
  let p := NewParser (runes "x1 := x2 + 1") in
  let p3 := parser_at (runes " + 1") None VARIABLE (runes "x2") 0 in
  parseIncr p = Some ((None, Some (ErrIndexMismatch 1 2)), p3)
  /\ Parse p = Some ((None, Some (ErrIndexMismatch 1 2)), p3).
Proof.
  refine (proj1 (proj1 (parseIncr_index_mismatch
                          (NewParser (runes "x1 := x2 + 1")))
                   (runes "x1") _ _ _ (runes "x2") _ 1 2 _ _ _ _ _) _).
  - reflexivity.
  - reflexivity.
  - reflexivity.
  - reflexivity.
  - reflexivity.
  - discriminate.
Defined.

(** ** C3 *)

(** C3 fails on the code: when the reader is exhausted, [read] returns the
    error [io.EOF] of [ReadRune], and [Scan] returns this error with the
    ILLEGAL token before it reaches its case for [eof].  The EOF token is what
    [Scan] returns for a NUL rune of the input. *)
Theorem Scan_end_of_stream l :
  Scan (scanner_at [] l)
  = Some ((ILLEGAL, [], Some (Wrap "error reading next character: %s" io_EOF)),
          scanner_at [] None)
  /\ forall t, Scan (scanner_at (eof :: t) l)
               = Some ((EOF, [], None), scanner_at t (Some eof)).
Proof. split; reflexivity. Qed.

(** ** C4 *)

Lemma Parse_after_semicolon rec ex1 expr rest0 l bt bl ex2 p2 :
  rec (NewParser rest0) = Some ((ex2, None), p2) ->
  (forall p p', buf_n p = 0 -> buf_n p' = 0 ->
                rest (r (s p)) = rest (r (s p')) -> rec p = rec p') ->
  Parse_after rec ex1 expr (parser_at (runes " ;" ++ rest0) l bt bl 0)
  = Some ((Some (makeSeqExpr (Some ex1) ex2), None), p2).
Proof.
  intros Hrec Hext. unfold Parse_after.
  eapply bind_step.
  { change (runes " ;" ++ rest0) with (rune_of " " :: rune_of ";" :: rest0).
    apply scanIgnoreWhitespace_space; [reflexivity | discriminate | reflexivity]. }
  cbv beta iota. change (Token_eqb SEMICOLON ILLEGAL || Token_eqb SEMICOLON EOF)
    with false.
  change (Token_eqb SEMICOLON SEMICOLON) with true. cbv iota.
  eapply bind_step.
  { rewrite (Hext _ (NewParser rest0)); [exact Hrec | reflexivity ..]. }
  reflexivity.
Qed.

(** C4: the text [x1 := x1 + 1 ; x1 := x1 - 1] parses to the sequence of
    the increment and the decrement of [x1]; and in general an increment
    followed by a semicolon and a text [rest0] that parses to [ex2] parses to
    the sequence whose first child is the increment and whose second child
    is [ex2], the whole of what follows the semicolon. *)
Theorem Parse_sequence :
  option_map fst (Parse (NewParser (runes "x1 := x1 + 1 ; x1 := x1 - 1")))
  = Some (Some (makeSeqExpr (Some (makeIncrExpr 1 false))
                            (Some (makeIncrExpr 1 true))), None)
  /\ forall n dec rest0 ex2 p2,
       0 <= n <= maxInt ->
       Parse (NewParser rest0) = Some ((ex2, None), p2) ->
       Parse (NewParser (incr_text n dec ++ runes " ;" ++ rest0))
       = Some ((Some (makeSeqExpr (Some (makeIncrExpr n dec)) ex2), None), p2).
Proof.
  split; [reflexivity|].
  intros n dec rest0 ex2 p2 Hn Hrest.
  rewrite (Parse_incr_suffix n dec _ Hn).
  apply Parse_after_semicolon.
  - unfold Parse in Hrest. apply bind_inv in Hrest as (p & p' & Hget & Hrest).
    injection Hget as <- <-.
    refine (Parse_fuel_mono _ _ _ _ _ Hrest).
    cbn [rest r s NewParser NewScanner NewReader].
    rewrite !length_app. change (length (runes " ;")) with 2%nat. lia.
  - intros p p'. apply Parse_fuel_ext.
Qed.

Lemma Parse_sequence_witness :
  option_map fst
    (Parse (NewParser (runes "x1 := x1 + 1 ; x2 := x2 - 1 ; x3 := x3 + 1")))
  = Some (Some (makeSeqExpr
                  (Some (makeIncrExpr 1 false))
                  (Some (makeSeqExpr (Some (makeIncrExpr 2 true))
                                     (Some (makeIncrExpr 3 false))))), None).
Proof.
  assert (H1 : 0 <= 1 <= maxInt) by (vm_compute; split; discriminate).
  exact (f_equal (option_map fst)
           (proj2 Parse_sequence 1 false (runes " x2 := x2 - 1 ; x3 := x3 + 1")
                  _ _ H1 eq_refl)).
Defined.

(** ** C5 *)

(** C5, as the code has it: when an increment is followed by a token that
    is neither SEMICOLON nor EOF nor ILLEGAL, [Parse] returns the node of the
    increment and no error, and it has read this token and not put it back:
    [Parse] leaves the parser in the state [p2] in which
    [scanIgnoreWhitespace] leaves it after the token, where the buffer
    records the token and its count [n] is 0. *)
Theorem Parse_trailing_token n dec suffix tok lit err p2 :
  0 <= n <= maxInt ->
  scanIgnoreWhitespace (NewParser suffix) = Some ((tok, lit, err), p2) ->
  tok <> SEMICOLON -> tok <> EOF -> tok <> ILLEGAL ->
  Parse (NewParser (incr_text n dec ++ suffix))
  = Some ((Some (makeIncrExpr n dec), None), p2)
  /\ buf_n p2 = 0 /\ buf_tok p2 = tok /\ buf_lit p2 = lit.
Proof.
  intros Hn Hscan Hsemi Heof Hill.
  destruct (scanIgnoreWhitespace_buffer _ _ _ _ _ Hscan) as (H0 & Ht & Hl & Herr).
  split; [|auto].
  rewrite (Parse_incr_suffix n dec suffix Hn). unfold Parse_after.
  eapply bind_step.
  { rewrite (scanIgnoreWhitespace_ext _ (NewParser suffix));
      [exact Hscan | reflexivity ..]. }
  cbv beta iota.
  destruct err as [e|]; [exfalso; apply Hill, Herr; discriminate|].
  destruct tok; try contradiction; reflexivity.
Qed.

Lemma Parse_trailing_token_witness :
  let p2 := parser_at (runes " x1") (Some (rune_of "D")) END (runes "END") 0 in
  Parse (NewParser (runes "x7 := x7 - 1 END x1"))
  = Some ((Some (makeIncrExpr 7 true), None), p2)
  /\ buf_n p2 = 0 /\ buf_tok p2 = END /\ buf_lit p2 = runes "END".
Proof.
  assert (H7 : 0 <= 7 <= maxInt) by (vm_compute; split; discriminate).
  refine (Parse_trailing_token 7 true (runes " END x1") END (runes "END") None _
            H7 eq_refl _ _ _); discriminate.
Defined.

(** C5 as the specification states it fails on the text [x1 := x1 + 1 +]:
    after [Parse] the count of the buffer is 0, not 1, and the next [scan]
    does not return the PLUS token again but reads the input, which is at
    its end. *)
Lemma Parse_trailing_token_not_pushed_back :
  let p' := parser_at [] (Some (rune_of "+")) PLUS (runes "+") 0 in
  Parse (NewParser (runes "x1 := x1 + 1 +"))
  = Some ((Some (makeIncrExpr 1 false), None), p')
  /\ buf_n p' = 0
  /\ option_map fst (scan p')
     = Some (ILLEGAL, [], Some (Wrap "error reading next character: %s" io_EOF)).
Proof. repeat split. Qed.

(** ** C6 *)

(** C6: when the input starts with the first rune of ":=", "!=", "WHILE",
    "DO" or "END" and does not start with the whole literal, [Scan] returns
    the ILLEGAL token with the empty literal and an error. *)
Theorem Scan_multi_rune_mismatch tok c str t l :
  In (tok, c :: str) multi_rune_tokens ->
  (forall t', c :: t <> (c :: str) ++ t') ->
  exists e sc,
    Scan (scanner_at (c :: t) l) = Some ((ILLEGAL, [], Some e), sc).
Proof.
  intros Hin Hno. rewrite (Scan_multi_rune tok c str t l Hin).
  apply scanString_loop_mismatch, Hno.
Qed.

Lemma Scan_multi_rune_mismatch_witness :
  exists e sc,
    Scan (scanner_at (runes ":!") None) = Some ((ILLEGAL, [], Some e), sc).
Proof.
  apply (Scan_multi_rune_mismatch ASSIGN (rune_of ":") (runes "=") (runes "!") None).
  - simpl. left. reflexivity.
  - intros t' H. discriminate H.
Defined.

(** The literal itself is read as its token. *)
Lemma Scan_multi_rune_match tok c str t l :
  In (tok, c :: str) multi_rune_tokens ->
  exists sc,
    Scan (scanner_at ((c :: str) ++ t) l) = Some ((tok, c :: str, None), sc)
    /\ rest (r sc) = t.
Proof.
  intros Hin. simpl app. rewrite (Scan_multi_rune tok c str (str ++ t) l Hin).
  apply (scanString_loop_match tok (c :: str) [] t None).
Qed.

(** ** C7 *)

(** C7, as the code has it: on an input that starts with a non-empty run
    of whitespace runes followed by [t], where [t] is empty or starts with a
    rune that is not whitespace, [Scan] returns one WS token whose literal is
    the run, and leaves the reader as [after_run t] says: at the end of the
    input, or before the first rune of [t], which it has not consumed,
    unless this rune is NUL, the [eof] of the scanner, which it has. *)
Theorem Scan_whitespace_run run t l :
  run <> [] ->
  Forall (fun c => isWhitespace c = true) run ->
  stops isWhitespace t ->
  Scan (scanner_at (run ++ t) l) = Some ((WS, run, None), after_run t)
  /\ rest (r (after_run t))
     = match t with
       | c :: t' => if c =? eof then t' else t
       | [] => []
       end.
Proof.
  intros Hne Hrun Ht. split.
  - destruct run as [|c w]; [contradiction|].
    inversion Hrun as [|? ? Hc Hw]; subst.
    apply (Scan_whitespace c w t l Hc Hw Ht).
  - destruct t as [|c t']; [reflexivity|].
    unfold after_run. destruct (c =? eof); reflexivity.
Qed.

Lemma Scan_whitespace_run_witness :
  Scan (scanner_at (runes "  x1") None)
  = Some ((WS, runes "  ", None), scanner_at (runes "x1") None)
  /\ rest (r (scanner_at (runes "x1") None)) = runes "x1".
Proof.
  apply (Scan_whitespace_run (runes "  ") (runes "x1") None).
  - discriminate.
  - repeat constructor.
  - reflexivity.
Defined.

(** C7 as the specification states it fails on a space followed by a NUL
    rune and [x1]: NUL is not whitespace, and [Scan] consumes it with the
    space, leaving [x1]. *)
Lemma Scan_whitespace_consumes_NUL :
  isWhitespace eof = false
  /\ Scan (NewScanner (runes " " ++ eof :: runes "x1"))
     = Some ((WS, runes " ", None), scanner_at (runes "x1") (Some eof)).
Proof. split; reflexivity. Qed.

(** ** C8 *)

(** C8: a decrement of a variable that is 0 leaves it at 0, and an
    increment makes the variable one more; both return an environment. *)
Theorem run_Increment fuel v env :
  (Interpreter.value env v = 0 ->
   option_map (fun env' => Interpreter.value env' v)
     (Interpreter.run (S fuel) (Interpreter.Increment v true) env) = Some 0)
  /\ option_map (fun env' => Interpreter.value env' v)
       (Interpreter.run (S fuel) (Interpreter.Increment v false) env)
     = Some (Interpreter.value env v + 1).
Proof.
  unfold Interpreter.value. cbn [Interpreter.run option_map]. split.
  - intros H. rewrite lookup_insert_eq. cbn. unfold Interpreter.value. rewrite H.
    reflexivity.
  - rewrite lookup_insert_eq. reflexivity.
Qed.

Lemma run_Increment_witness :
  option_map (fun env' => Interpreter.value env' 0)
    (Interpreter.run 1 (Interpreter.Increment 0 true) ∅) = Some 0
  /\ option_map (fun env' => Interpreter.value env' 0)
       (Interpreter.run 1 (Interpreter.Increment 0 false) ∅) = Some 1.
Proof.
  split.
  - apply (proj1 (run_Increment 0 0 ∅)). reflexivity.
  - exact (proj2 (run_Increment 0 0 ∅)).
Defined.

(** ** C9 *)

Lemma NewParser_fresh input : fresh_over input (NewParser input).
Proof. split; reflexivity. Qed.

(** C9: on every input [Parse] returns, and two parsers that are fresh
    over the same input return the same expression and the same error, and
    end in the same state. *)
Theorem Parse_deterministic input p1 p2 :
  fresh_over input p1 -> fresh_over input p2 ->
  exists expr err p',
    Parse p1 = Some ((expr, err), p') /\ Parse p2 = Some ((expr, err), p').
Proof.
  intros [Hn1 Hr1] [Hn2 Hr2].
  destruct (Parse_total p1) as ([expr err] & p' & H1 & _).
  exists expr, err, p'. split; [exact H1|].
  rewrite <- H1. unfold Parse.
  unfold bind, get. rewrite Hr1, Hr2.
  apply Parse_fuel_ext; congruence.
Qed.

Lemma Parse_deterministic_witness :
  exists expr err p',
    Parse (NewParser (runes "x1 := x1 + 1 ; x2 := x2 - 1"))
    = Some ((expr, err), p')
    /\ Parse (parser_at (runes "x1 := x1 + 1 ; x2 := x2 - 1")
                        (Some (rune_of ";")) SEMICOLON (runes ";") 0)
       = Some ((expr, err), p').
Proof.
  apply (Parse_deterministic (runes "x1 := x1 + 1 ; x2 := x2 - 1"));
    split; reflexivity.
Defined.

(** ** C10 *)

(** C10: when the first token is read without error and is not a
    VARIABLE, and the token after it is not a SEMICOLON, [Parse] returns
    neither an expression nor an error. *)
Theorem Parse_nil_nil p tok lit p1 tok2 lit2 err2 p2 :
  scanIgnoreWhitespace p = Some ((tok, lit, None), p1) ->
  tok <> VARIABLE ->
  scanIgnoreWhitespace p1 = Some ((tok2, lit2, err2), p2) ->
  tok2 <> SEMICOLON ->
  Parse p = Some ((None, None), p2).
Proof.
  intros H1 Hvar H2 Hsemi.
  destruct (scanIgnoreWhitespace_buffer _ _ _ _ _ H2) as (_ & _ & _ & Herr).
  unfold Parse. eapply bind_step; [reflexivity|]. cbv beta.
  cbn [Parse_fuel]. eapply bind_step; [exact H1|]. cbv beta iota.
  assert (Hv : Token_eqb tok VARIABLE = false)
    by (destruct tok; try reflexivity; contradiction).
  rewrite Hv. unfold Parse_after.
  eapply bind_step; [exact H2|]. cbv beta iota.
  destruct err2 as [e|].
  - rewrite (Herr ltac:(discriminate)). reflexivity.
  - destruct tok2; try reflexivity. contradiction.
Qed.

Lemma Parse_nil_nil_witness :
  Parse (NewParser (runes "WHILE x1"))
  = Some ((None, None), parser_at [] None VARIABLE (runes "x1") 0).
Proof.
  refine (Parse_nil_nil (NewParser (runes "WHILE x1")) WHILE (runes "WHILE") _
            VARIABLE (runes "x1") None _ eq_refl _ eq_refl _); discriminate.
Defined.

(** * Further properties of the scanner and the parser *)

(** ** What every call of Scan gives *)

Lemma span class (t : list rune) :
  exists w t', t = w ++ t' /\ Forall (fun c => class c = true) w /\ stops class t'.
Proof.
  induction t as [|c t (w & t' & Heq & Hw & Ht')].
  - exists [], []. repeat split. constructor.
  - destruct (class c) eqn:Hc.
    + exists (c :: w), t'. subst t. repeat split; [constructor; assumption | exact Ht'].
    + exists [], (c :: t). repeat split; [constructor | exact Hc].
Qed.

Lemma after_run_split t :
  exists z, t = z ++ rest (r (after_run t)) /\ (z = [] \/ z = [eof]).
Proof.
  destruct t as [|c t]; [exists []; split; [reflexivity | left; reflexivity]|].
  unfold after_run. destruct (Z.eqb_spec c eof) as [->|].
  - exists [eof]. split; [reflexivity | right; reflexivity].
  - exists []. split; [reflexivity | left; reflexivity].
Qed.

Lemma scanString_loop_full tok str : forall buf input l,
  exists res sc,
    scanString_loop tok str buf (scanner_at input l) = Some (res, sc)
    /\ ((res = (tok, buf ++ str, None) /\ input = str ++ rest (r sc))
        \/ ((exists e, res = scanError e)
            /\ (length (rest (r sc)) <= length input)%nat)).
Proof.
  induction str as [|strCh str IH]; intros buf input l.
  - eexists _, _. split; [reflexivity|]. left. rewrite app_nil_r. split; reflexivity.
  - cbn [scanString_loop]. destruct input as [|c t].
    + rewrite (bind_Some _ _ _ _ _ (read_nil l)).
      eexists _, _. split; [reflexivity|]. right. split; [eexists; reflexivity | cbn; lia].
    + rewrite (bind_Some _ _ _ _ _ (read_cons c t l)).
      destruct (Z.eqb_spec c strCh) as [->|]; cbn [negb].
      * destruct (IH (buf ++ [strCh]) t (Some strCh))
          as (res & sc & Hrun & [[Hres Ht] | [He Hlen]]).
        -- exists res, sc. split; [exact Hrun|]. left.
           rewrite Hres, <- app_assoc. split; [reflexivity|]. cbn. congruence.
        -- exists res, sc. split; [exact Hrun|]. right.
           split; [exact He | cbn; lia].
      * eexists _, _. split; [reflexivity|]. right.
        split; [eexists; reflexivity | cbn; lia].
Qed.

Lemma Scan_unknown c t l :
  known_first c = false ->
  Scan (scanner_at (c :: t) l) = Some ((ILLEGAL, [c], None), scanner_at t (Some c)).
Proof.
  intros Hk. unfold Scan. rewrite (bind_Some _ _ _ _ _ (read_cons c t l)).
  repeat match goal with
    | |- context [if ?b then _ else _] => destruct b eqn:?
    end;
    try reflexivity;
    try (unfold known_first in Hk;
         match goal with H : isWhitespace c = true |- _ => rewrite H in Hk end;
         discriminate Hk);
    match goal with
    | H : (c =? _) = true |- _ => apply Z.eqb_eq in H; subst c; discriminate Hk
    end.
Qed.

Ltac full_simple :=
  eapply wp_eq; [reflexivity|];
  cbn [scan_full]; exists []; cbn [app r rest scanner_at first_is];
  repeat split; try discriminate; try congruence;
  try (left; reflexivity).

Ltac full_multi tok str t l :=
  unfold wp;
  rewrite (Scan_multi_rune tok _ str t l ltac:(simpl; tauto));
  cbn [scanString_loop];
  rewrite (bind_Some _ _ _ _ _ (read_cons _ t None));
  rewrite Z.eqb_refl; cbn [negb];
  let res := fresh "res" in
  let sc := fresh "sc" in
  let Hrun := fresh "Hrun" in
  let Hres := fresh "Hres" in
  let Ht := fresh "Ht" in
  let e := fresh "e" in
  let Hlen := fresh "Hlen" in
  match goal with
  | |- exists _ _, scanString_loop ?k ?s ?b (scanner_at t ?l') = _ /\ _ =>
      destruct (scanString_loop_full k s b t l')
        as (res & sc & Hrun & [[Hres Ht] | [[e Hres] Hlen]])
  end;
  exists res, sc; (split; [exact Hrun|]); subst res;
  [ cbn [scan_full]; exists []; cbn [app];
    repeat split; try discriminate; try congruence; try (left; reflexivity)
  | cbn [scan_full scanError first_is length];
    repeat split; try discriminate; try lia;
    right; eexists tok, _, str, t; split; [reflexivity | simpl; tauto] ].

Lemma Scan_full input l : wp Scan (scanner_at input l) (scan_full input).
Proof.
  destruct input as [|c t].
  { eapply wp_eq; [reflexivity|]. cbn.
    repeat split; try lia; try congruence. left. reflexivity. }
  destruct (isWhitespace c) eqn:Hws.
  { destruct (span isWhitespace t) as (w & t' & -> & Hw & Ht').
    eapply wp_eq; [apply (Scan_whitespace c w t' l Hws Hw Ht')|].
    destruct (after_run_split t') as (z & Hz & Hz').
    cbn [scan_full]. exists z. rewrite <- Hz.
    repeat split; try discriminate; try congruence; auto. }
  destruct (known_first c) eqn:Hk.
  2: { eapply wp_eq; [apply (Scan_unknown c t l Hk)|].
       cbn [scan_full]. exists []. cbn [app r rest scanner_at first_is].
       repeat split; try discriminate; try congruence; try (left; reflexivity).
       intros _. exists c, t. auto. }
  unfold known_first in Hk. rewrite Hws in Hk. cbn [orb] in Hk.
  apply existsb_exists in Hk as (k & Hin & Hk). apply Z.eqb_eq in Hk. subst k.
  simpl in Hin.
  repeat (destruct Hin as [Hin | Hin]; [symmetry in Hin|]); try contradiction;
    subst c.
  - (* NUL *)
    eapply wp_eq; [reflexivity|].
    cbn [scan_full]. exists [eof]. cbn [app r rest scanner_at first_is].
    repeat split; try discriminate; try congruence; try (right; reflexivity).
  - (* x *)
    destruct (span isDigit t) as (w & t' & -> & Hw & Ht').
    eapply wp_eq; [apply (Scan_variable w t' l Hw Ht')|].
    destruct (after_run_split t') as (z & Hz & Hz').
    cbn [scan_full]. exists z. rewrite <- Hz. cbn [first_is].
    repeat split; try discriminate; try congruence; auto.
    intros _. exists w. split; [reflexivity | exact Hw].
  - full_simple.
  - full_simple.
  - full_multi ASSIGN (runes "=") t l.
  - full_multi NOTEQUAL (runes "=") t l.
  - full_simple.
  - full_simple.
  - full_simple.
  - full_multi WHILE (runes "HILE") t l.
  - full_multi DO (runes "O") t l.
  - full_multi END (runes "ND") t l.
Qed.

Lemma Scan_full_inv input l res sc :
  Scan (scanner_at input l) = Some (res, sc) -> scan_full input res sc.
Proof.
  intros H. destruct (Scan_full input l) as (res' & sc' & H' & Hfull).
  rewrite H in H'. injection H' as <- <-. exact Hfull.
Qed.

(** [Scan] fails only at the end of the input and inside ":=", "!=",
    "WHILE", "DO" and "END"; whitespace, variables and the tokens of one rune
    never fail.  A failure comes with the ILLEGAL token and the empty
    literal. *)
Theorem Scan_error_origin input l tok lit e sc :
  Scan (scanner_at input l) = Some ((tok, lit, Some e), sc) ->
  tok = ILLEGAL /\ lit = []
  /\ (input = []
      \/ exists tk c str t, input = c :: t /\ In (tk, c :: str) multi_rune_tokens).
Proof.
  intros H. apply Scan_full_inv in H. destruct H as (Htok & Hlit & _ & _ & Horigin).
  auto.
Qed.

Lemma Scan_error_origin_witness :
  ILLEGAL = ILLEGAL /\ @nil rune = []
  /\ (runes "WHILx" = []
      \/ exists tk c str t,
           runes "WHILx" = c :: t /\ In (tk, c :: str) multi_rune_tokens).
Proof.
  exact (Scan_error_origin (runes "WHILx") None ILLEGAL []
           (ErrUnexpectedString (runes "WHIL")) _ eq_refl).
Defined.

(** [Scan] returns on every input.  On a non-empty input it consumes at
    least one rune; on the empty input it returns an error and the input
    stays empty. *)
Theorem Scan_progress input l :
  exists tok lit err sc,
    Scan (scanner_at input l) = Some ((tok, lit, err), sc)
    /\ (input <> [] -> (length (rest (r sc)) < length input)%nat)
    /\ (input = [] -> err <> None /\ rest (r sc) = []).
Proof.
  destruct (Scan_full input l) as ([[tok lit] err] & sc & H & Hfull).
  exists tok, lit, err, sc. split; [exact H|].
  cbn [scan_full] in Hfull. destruct err as [e|].
  - destruct Hfull as (_ & _ & Hle & Hlt & _). split; [exact Hlt|].
    intros ->. split; [discriminate|].
    destruct (rest (r sc)); [reflexivity | cbn in Hle; lia].
  - destruct Hfull as (z & Hin & Hz & Heof & Hlit & _).
    assert (Hlen : (length (rest (r sc)) < length input)%nat).
    { rewrite Hin, !length_app.
      destruct (Token_eq_dec tok EOF) as [E|E].
      - destruct (Heof E) as [_ ->]. cbn. lia.
      - specialize (Hlit E). destruct lit; [contradiction | cbn; lia]. }
    split; [intros _; exact Hlen|].
    intros ->. cbn in Hlen. lia.
Qed.

(** On an input without NUL runes, the literal of a token scanned without
    error is not empty and is the text consumed: the input is the literal
    followed by what is left to read. *)
Theorem Scan_literal_consumed input l tok lit sc :
  Forall (fun c => c <> eof) input ->
  Scan (scanner_at input l) = Some ((tok, lit, None), sc) ->
  lit <> [] /\ input = lit ++ rest (r sc).
Proof.
  intros Hnul H. apply Scan_full_inv in H.
  destruct H as (z & Hin & Hz & Heof & Hlit & _).
  assert (Hz' : z = []).
  { destruct Hz as [->| ->]; [reflexivity|]. exfalso.
    rewrite Hin in Hnul. apply Forall_app in Hnul as [_ Hnul].
    inversion Hnul as [|? ? Hc _]. apply Hc. reflexivity. }
  subst z. split; [|exact Hin].
  apply Hlit. intros E. destruct (Heof E) as [_ Habs]. discriminate Habs.
Qed.

Lemma Scan_literal_consumed_witness :
  runes "WHILE" <> []
  /\ runes "WHILE x1"
     = runes "WHILE" ++ rest (r (scanner_at (runes " x1") (Some (rune_of "E")))).
Proof.
  apply (Scan_literal_consumed (runes "WHILE x1") None WHILE (runes "WHILE") _).
  - repeat constructor; discriminate.
  - reflexivity.
Defined.

(** A variable is [x] and the maximal run of digits after it: there may be
    no digit, and leading zeros stay in the literal.  The rune after the
    digits is not consumed, unless it is NUL. *)
Theorem Scan_variable_run ds t l :
  Forall (fun c => isDigit c = true) ds ->
  stops isDigit t ->
  Scan (scanner_at (rune_of "x" :: ds ++ t) l)
  = Some ((VARIABLE, rune_of "x" :: ds, None), after_run t)
  /\ rest (r (after_run t))
     = match t with
       | c :: t' => if c =? eof then t' else t
       | [] => []
       end.
Proof.
  intros Hds Ht. split; [apply (Scan_variable ds t l Hds Ht)|].
  destruct t as [|c t']; [reflexivity|].
  unfold after_run. destruct (c =? eof); reflexivity.
Qed.

Lemma Scan_variable_run_witness :
  (Scan (scanner_at (runes "x042:=") None)
   = Some ((VARIABLE, runes "x042", None), scanner_at (runes ":=") None)
   /\ rest (r (scanner_at (runes ":=") None)) = runes ":=")
  /\ (Scan (scanner_at (runes "x") None)
      = Some ((VARIABLE, runes "x", None), scanner_at [] None)
      /\ rest (r (scanner_at [] None)) = []).
Proof.
  split.
  - apply (Scan_variable_run (runes "042") (runes ":=") None).
    + repeat constructor.
    + reflexivity.
  - apply (Scan_variable_run [] [] None).
    + constructor.
    + exact I.
Defined.

Lemma Scan_multi_rune_match_witness :
  exists sc,
    Scan (scanner_at (runes "WHILEx1") None) = Some ((WHILE, runes "WHILE", None), sc)
    /\ rest (r sc) = runes "x1".
Proof.
  apply (Scan_multi_rune_match WHILE (rune_of "W") (runes "HILE") (runes "x1") None).
  simpl. tauto.
Defined.

(** [Scan] returns the ILLEGAL token without an error exactly for an input
    that starts with a rune that starts no token; the literal is this rune,
    and it is the one rune consumed. *)
Theorem Scan_illegal_unknown input l lit sc :
  Scan (scanner_at input l) = Some ((ILLEGAL, lit, None), sc)
  <-> exists c t, input = c :: t /\ known_first c = false
                  /\ lit = [c] /\ sc = scanner_at t (Some c).
Proof.
  split.
  - intros H. apply Scan_full_inv in H.
    destruct H as (z & _ & _ & _ & _ & _ & _ & _ & Hill). apply Hill. reflexivity.
  - intros (c & t & -> & Hk & -> & ->). apply Scan_unknown, Hk.
Qed.

(** ** The buffer of the parser *)

(** A token pushed back with [unscan] is the next token of [scan], which
    leaves the parser as it was before [unscan]; the error that came with
    the token is not replayed.  Pushing back twice is pushing back once. *)
Theorem unscan_replays p tok lit err p1 :
  scan p = Some ((tok, lit, err), p1) ->
  (let* _ := unscan in scan) p1 = Some ((tok, lit, None), p1)
  /\ (let* _ := unscan in let* _ := unscan in scan) p1 = Some ((tok, lit, None), p1).
Proof.
  intros H. destruct (scan_total p) as (res & p' & H' & Hpost).
  rewrite H in H'. injection H' as <- <-.
  destruct Hpost as (_ & Hn & Htok & Hlit & _).
  destruct p1 as [sc bt bl n]. cbn in Hn, Htok, Hlit. subst n bt bl.
  split; reflexivity.
Qed.

Lemma unscan_replays_witness :
  let p1 := parser_at [] (Some (rune_of "!")) ILLEGAL [] 0 in
  (let* _ := unscan in scan) p1 = Some ((ILLEGAL, [], None), p1)
  /\ (let* _ := unscan in let* _ := unscan in scan) p1
     = Some ((ILLEGAL, [], None), p1).
Proof.
  exact (unscan_replays (NewParser (runes ":!")) ILLEGAL []
           (Some (ErrUnexpectedString (runes ":"))) _ eq_refl).
Defined.

Lemma scan_empty_inv p tok lit err p' :
  buf_n p = 0 ->
  scan p = Some ((tok, lit, err), p') ->
  Scan (s p) = Some ((tok, lit, err), s p') /\ buf_n p' = 0.
Proof.
  intros Hn H. unfold scan in H. rewrite Hn in H. cbn [Z.eqb negb] in H.
  destruct (Scan (s p)) as [[[[tok' lit'] err'] sc]|]; [|discriminate H].
  injection H as <- <- <- <-. split; reflexivity.
Qed.

(** On an input without NUL runes, [scanIgnoreWhitespace] from an empty
    buffer never returns a WS token. *)
Theorem scanIgnoreWhitespace_not_WS input p tok lit err p' :
  Forall (fun c => c <> eof) input ->
  fresh_over input p ->
  scanIgnoreWhitespace p = Some ((tok, lit, err), p') ->
  tok <> WS.
Proof.
  intros Hnul [Hn Hin] H. unfold scanIgnoreWhitespace in H.
  apply bind_inv in H as ([[tok1 lit1] err1] & p1 & H1 & H).
  destruct (scan_empty_inv _ _ _ _ _ Hn H1) as [HScan Hn1].
  rewrite (scanner_at_eta (s p)), Hin in HScan. apply Scan_full_inv in HScan.
  cbn [scan_full] in HScan. destruct err1 as [e|].
  { injection H as <- _ _ _. destruct HScan as [-> _]. discriminate. }
  destruct HScan as (z & Hsplit & Hz & _ & _ & _ & Hstop & _).
  destruct (Token_eq_dec tok1 WS) as [->|Hne].
  2: { destruct tok1; try contradiction; injection H as <- _ _ _; discriminate. }
  specialize (Hstop eq_refl).
  destruct (scan_empty_inv _ _ _ _ _ Hn1 H) as [HScan2 _].
  rewrite (scanner_at_eta (s p1)) in HScan2. apply Scan_full_inv in HScan2.
  cbn [scan_full] in HScan2. destruct err as [e|].
  { destruct HScan2 as [-> _]. discriminate. }
  destruct HScan2 as (_ & _ & _ & _ & _ & Hws & _).
  intros ->. apply proj1 in Hws. specialize (Hws eq_refl).
  assert (Hz' : z = []).
  { destruct Hz as [->| ->]; [reflexivity|]. exfalso.
    rewrite Hsplit in Hnul. apply Forall_app in Hnul as [_ Hnul].
    inversion Hnul as [|? ? Hc _]. apply Hc. reflexivity. }
  subst z. cbn [app] in Hstop.
  destruct (rest (r (s p1))) as [|c t]; [exact Hws|].
  cbn in Hstop, Hws. congruence.
Qed.

Lemma scanIgnoreWhitespace_not_WS_witness : VARIABLE <> WS.
Proof.
  pose (input := rune_of " " :: rune_of "009" :: rune_of "010" :: runes "x1").
  apply (scanIgnoreWhitespace_not_WS input (NewParser input)
           VARIABLE (runes "x1") None
           (parser_at [] None VARIABLE (runes "x1") 0)).
  - repeat constructor; discriminate.
  - split; reflexivity.
  - reflexivity.
Defined.

(** ** Increments in free form *)

Lemma isWhitespace_not_digit c : isWhitespace c = true -> isDigit c = false.
Proof.
  unfold isWhitespace, isDigit. change (rune_of " ") with 32.
  change (rune_of "009") with 9. change (rune_of "010") with 10.
  change (rune_of "0") with 48. change (rune_of "9") with 57.
  intros H. apply orb_true_iff in H as [H|H];
    [apply orb_true_iff in H as [H|H]|]; apply Z.eqb_eq in H; subst c; reflexivity.
Qed.

(** After a run of digits: a gap and a rune that is not a digit. *)
Lemma gap_head g c t :
  Forall (fun c => isWhitespace c = true) g ->
  isDigit c = false -> c <> eof ->
  stops isDigit (g ++ c :: t)
  /\ after_run (g ++ c :: t) = scanner_at (g ++ c :: t) None.
Proof.
  intros Hg Hc Hnul. destruct g as [|a g]; cbn [app stops after_run].
  - split; [exact Hc|]. destruct (Z.eqb_spec c eof); [contradiction | reflexivity].
  - inversion Hg as [|? ? Ha _]; subst.
    split; [apply isWhitespace_not_digit, Ha|].
    rewrite (isWhitespace_not_eof a Ha). reflexivity.
Qed.

(** A gap, possibly empty, then a token. *)
Lemma scanIgnoreWhitespace_gap g c t l bt bl tok lit err input' l' :
  Forall (fun c => isWhitespace c = true) g ->
  isWhitespace c = false -> c <> eof -> tok <> WS ->
  Scan (scanner_at (c :: t) None) = Some ((tok, lit, err), scanner_at input' l') ->
  scanIgnoreWhitespace (parser_at (g ++ c :: t) l bt bl 0)
  = Some ((tok, lit, err), parser_at input' l' tok lit 0).
Proof.
  intros Hg Hc Hnul Htok H. destruct g as [|a g]; cbn [app].
  - apply scanIgnoreWhitespace_token; [exact Htok|].
    rewrite (Scan_ext _ (scanner_at (c :: t) None)); [exact H | reflexivity].
  - inversion Hg as [|? ? Ha Hg']; subst.
    assert (Hws : Scan (scanner_at (a :: g ++ c :: t) l)
                  = Some ((WS, a :: g, None), scanner_at (c :: t) None)).
    { rewrite (Scan_whitespace a g (c :: t) l Ha Hg' Hc).
      unfold after_run. destruct (Z.eqb_spec c eof); [contradiction | reflexivity]. }
    unfold scanIgnoreWhitespace.
    rewrite (bind_Some _ _ _ _ _ (scan_empty_buffer _ _ bt bl _ _ _ _ _ Hws)).
    cbv beta iota.
    apply (scan_empty_buffer _ _ WS (a :: g) _ _ _ _ _ H).
Qed.

Lemma incr_free_app g0 d1 g1 g2 d2 g3 dec g4 suffix :
  incr_free g0 d1 g1 g2 d2 g3 dec g4 ++ suffix
  = g0 ++ rune_of "x" :: d1 ++ g1 ++ rune_of ":" :: rune_of "=" :: g2
       ++ rune_of "x" :: d2 ++ g3 ++ sign dec :: g4 ++ rune_of "1" :: suffix.
Proof.
  unfold incr_free. change (runes ":=") with [rune_of ":"; rune_of "="].
  repeat (rewrite <- ?app_assoc, <- ?app_comm_cons). reflexivity.
Qed.

Section FreeForm.

Variables (g0 d1 g1 g2 d2 g3 g4 : list rune) (dec : bool) (n : Z).
Hypothesis Hg0 : Forall (fun c => isWhitespace c = true) g0.
Hypothesis Hg1 : Forall (fun c => isWhitespace c = true) g1.
Hypothesis Hg2 : Forall (fun c => isWhitespace c = true) g2.
Hypothesis Hg3 : Forall (fun c => isWhitespace c = true) g3.
Hypothesis Hg4 : Forall (fun c => isWhitespace c = true) g4.
Hypothesis Hd1 : Forall (fun c => isDigit c = true) d1.
Hypothesis Hd2 : Forall (fun c => isDigit c = true) d2.
Hypothesis Ha1 : Atoi d1 = (n, None).
Hypothesis Ha2 : Atoi d2 = (n, None).

Lemma parseIncr_free suffix l :
  parseIncr
    (parser_at (g1 ++ rune_of ":" :: rune_of "=" :: g2 ++ rune_of "x" :: d2
                   ++ g3 ++ sign dec :: g4 ++ rune_of "1" :: suffix)
       l VARIABLE (rune_of "x" :: d1) 1)
  = Some ((Some (mkIncrExpr n dec), None),
          parser_at suffix (Some (rune_of "1")) CONSTANT [rune_of "1"] 0).
Proof.
  unfold parseIncr.
  rewrite (bind_Some _ _ _ _ _
             (scanIgnoreWhitespace_buffered _ _ VARIABLE _ ltac:(discriminate))).
  change (Token_eqb VARIABLE VARIABLE) with true. cbn [negb].
  change (TrimPrefix_x (rune_of "x" :: d1)) with d1. rewrite Ha1.
  eapply bind_step;
    [apply scanIgnoreWhitespace_gap;
       [exact Hg1 | reflexivity | discriminate | | reflexivity]; discriminate |].
  cbv beta iota. change (Token_eqb ASSIGN ASSIGN) with true. cbn [negb].
  destruct (gap_head g3 (sign dec) (g4 ++ rune_of "1" :: suffix) Hg3
              ltac:(destruct dec; reflexivity) ltac:(destruct dec; discriminate))
    as [Hstop Hafter].
  eapply bind_step;
    [apply scanIgnoreWhitespace_gap;
       [exact Hg2 | reflexivity | discriminate |
        | rewrite (Scan_variable d2 _ None Hd2 Hstop), Hafter; reflexivity];
     discriminate |].
  cbv beta iota. change (Token_eqb VARIABLE VARIABLE) with true. cbn [negb].
  change (TrimPrefix_x (rune_of "x" :: d2)) with d2. rewrite Ha2.
  rewrite Z.eqb_refl. cbn [negb].
  eapply bind_step;
    [apply scanIgnoreWhitespace_gap;
       [exact Hg3 | destruct dec; reflexivity | destruct dec; discriminate
        | | apply Scan_sign]; destruct dec; discriminate |].
  cbv beta iota.
  destruct dec; cbv iota;
    (eapply bind_step;
       [apply scanIgnoreWhitespace_gap;
          [exact Hg4 | reflexivity | discriminate | | reflexivity];
        discriminate |]);
    reflexivity.
Qed.

Lemma Parse_incr_free_suffix suffix :
  Parse (NewParser (incr_free g0 d1 g1 g2 d2 g3 dec g4 ++ suffix))
  = Parse_after
      (Parse_fuel (length (incr_free g0 d1 g1 g2 d2 g3 dec g4 ++ suffix)))
      (makeIncrExpr n dec) (Some (makeIncrExpr n dec))
      (parser_at suffix (Some (rune_of "1")) CONSTANT [rune_of "1"] 0).
Proof.
  unfold Parse. eapply bind_step; [reflexivity|]. cbv beta.
  cbn [rest r s NewParser NewScanner NewReader]. cbn [Parse_fuel].
  rewrite incr_free_app.
  destruct (gap_head g1 (rune_of ":")
              (rune_of "=" :: g2 ++ rune_of "x" :: d2 ++ g3 ++ sign dec :: g4
                 ++ rune_of "1" :: suffix) Hg1 eq_refl ltac:(discriminate))
    as [Hstop Hafter].
  eapply bind_step.
  { apply (scanIgnoreWhitespace_gap g0 (rune_of "x") _ None ILLEGAL []);
      [exact Hg0 | reflexivity | discriminate |
       | rewrite (Scan_variable d1 _ None Hd1 Hstop), Hafter; reflexivity].
    discriminate. }
  cbv beta iota. change (Token_eqb VARIABLE VARIABLE) with true. cbv iota.
  eapply bind_step; [reflexivity|].
  eapply bind_step; [apply parseIncr_free|].
  reflexivity.
Qed.

End FreeForm.

(** The gaps between the tokens of an increment are free: each may be
    empty or any run of whitespace, also before the statement.  And the two
    variables are compared by the index that [strconv.Atoi] reads, so that
    leading zeros do not matter: when both digit strings read as [n], the
    text parses to the increment of [n]. *)
Theorem Parse_incr_free_form g0 d1 g1 g2 d2 g3 g4 dec n :
  Forall (fun c => isWhitespace c = true) g0 ->
  Forall (fun c => isWhitespace c = true) g1 ->
  Forall (fun c => isWhitespace c = true) g2 ->
  Forall (fun c => isWhitespace c = true) g3 ->
  Forall (fun c => isWhitespace c = true) g4 ->
  Forall (fun c => isDigit c = true) d1 ->
  Forall (fun c => isDigit c = true) d2 ->
  Atoi d1 = (n, None) ->
  Atoi d2 = (n, None) ->
  option_map fst (Parse (NewParser (incr_free g0 d1 g1 g2 d2 g3 dec g4)))
  = Some (Some (makeIncrExpr n dec), None).
Proof.
  intros Hg0 Hg1 Hg2 Hg3 Hg4 Hd1 Hd2 Ha1 Ha2.
  rewrite <- (app_nil_r (incr_free g0 d1 g1 g2 d2 g3 dec g4)).
  rewrite (Parse_incr_free_suffix g0 d1 g1 g2 d2 g3 g4 dec n
             Hg0 Hg1 Hg2 Hg3 Hg4 Hd1 Hd2 Ha1 Ha2 []).
  reflexivity.
Qed.

Lemma Parse_incr_free_form_witness :
  incr_free (runes "  ") (runes "007") [] [] (runes "7") [] true (runes " ")
  = runes "  x007:=x7- 1"
  /\ option_map fst (Parse (NewParser (runes "  x007:=x7- 1")))
     = Some (Some (makeIncrExpr 7 true), None).
Proof.
  split; [reflexivity|].
  apply (Parse_incr_free_form (runes "  ") (runes "007") [] [] (runes "7") []
           (runes " ") true 7);
    repeat constructor.
Defined.

(** ** Programs *)

Lemma incr_text_free g0 n dec :
  g0 ++ incr_text n dec
  = incr_free g0 (decimal n) (runes " ") (runes " ") (decimal n) (runes " ")
      dec (runes " ").
Proof.
  unfold incr_text, incr_free. change (runes "x") with [rune_of "x"].
  cbn [app]. rewrite <- (app_nil_r (incr_rhs n dec)), incr_rhs_app.
  reflexivity.
Qed.

Lemma Parse_incr_text_gap g0 n dec suffix :
  Forall (fun c => isWhitespace c = true) g0 ->
  0 <= n <= maxInt ->
  Parse (NewParser (g0 ++ incr_text n dec ++ suffix))
  = Parse_after (Parse_fuel (length (g0 ++ incr_text n dec ++ suffix)))
      (makeIncrExpr n dec) (Some (makeIncrExpr n dec))
      (parser_at suffix (Some (rune_of "1")) CONSTANT [rune_of "1"] 0).
Proof.
  intros Hg0 Hn. rewrite app_assoc, incr_text_free.
  apply Parse_incr_free_suffix;
    try (repeat constructor; fail);
    try (apply decimal_digits; lia);
    try (apply Atoi_decimal; exact Hn).
  exact Hg0.
Qed.

Lemma Parse_program_gap more : forall st g0,
  Forall (fun c => isWhitespace c = true) g0 ->
  Forall (fun st => 0 <= fst st <= maxInt) (st :: more) ->
  exists p',
    Parse (NewParser (g0 ++ program_text st more))
    = Some ((Some (program_expr st more), None), p').
Proof.
  induction more as [|st' more IH]; intros [n dec] g0 Hg0 Hrange;
    inversion Hrange as [|? ? Hn Hmore]; subst; cbn [fst snd] in Hn;
    cbn [program_text program_expr fst snd].
  - exists (parser_at [] None ILLEGAL [] 0).
    rewrite <- (app_nil_r (incr_text n dec)).
    rewrite (Parse_incr_text_gap g0 n dec [] Hg0 Hn). reflexivity.
  - destruct (IH st' (runes " ") ltac:(repeat constructor) Hmore) as [p' Hrest].
    exists p'.
    change (runes " ; " ++ program_text st' more)
      with (runes " ;" ++ runes " " ++ program_text st' more).
    rewrite (Parse_incr_text_gap g0 n dec _ Hg0 Hn).
    apply Parse_after_semicolon.
    + unfold Parse in Hrest. apply bind_inv in Hrest as (p & p0 & Hget & Hrest).
      injection Hget as <- <-.
      refine (Parse_fuel_mono _ _ _ _ _ Hrest).
      cbn [rest r s NewParser NewScanner NewReader].
      rewrite !length_app. change (length (runes " ;")) with 2%nat.
      change (length (runes " ")) with 1%nat. cbn [length]. lia.
    + intros p p0. apply Parse_fuel_ext.
Qed.

(** A program of any number of increments with [ ; ] between them parses
    to the sequences nested to the right: the first statement, and the
    sequence of those that follow. *)
Theorem Parse_program st more :
  Forall (fun st => 0 <= fst st <= maxInt) (st :: more) ->
  option_map fst (Parse (NewParser (program_text st more)))
  = Some (Some (program_expr st more), None).
Proof.
  intros Hrange.
  destruct (Parse_program_gap more st [] ltac:(constructor) Hrange) as [p' H].
  cbn [app] in H. rewrite H. reflexivity.
Qed.

Lemma Parse_program_witness :
  program_text (1, false) [(2, true); (3, false); (4, true)]
  = runes "x1 := x1 + 1 ; x2 := x2 - 1 ; x3 := x3 + 1 ; x4 := x4 - 1"
  /\ option_map fst
       (Parse (NewParser
                 (program_text (1, false) [(2, true); (3, false); (4, true)])))
     = Some (Some (makeSeqExpr (Some (makeIncrExpr 1 false))
               (Some (makeSeqExpr (Some (makeIncrExpr 2 true))
                  (Some (makeSeqExpr (Some (makeIncrExpr 3 false))
                     (Some (makeIncrExpr 4 true))))))), None).
Proof.
  split; [reflexivity|].
  apply (Parse_program (1, false) [(2, true); (3, false); (4, true)]).
  repeat constructor; vm_compute; discriminate.
Defined.

Lemma Parse_after_semicolon_error rec ex1 expr rest0 l bt bl ex2 e p2 :
  rec (NewParser rest0) = Some ((ex2, Some e), p2) ->
  (forall p p', buf_n p = 0 -> buf_n p' = 0 ->
                rest (r (s p)) = rest (r (s p')) -> rec p = rec p') ->
  Parse_after rec ex1 expr (parser_at (runes " ;" ++ rest0) l bt bl 0)
  = Some ((None, Some (Wrap "no valid expression after semicolon: %s" e)), p2).
Proof.
  intros Hrec Hext. unfold Parse_after.
  eapply bind_step.
  { change (runes " ;" ++ rest0) with (rune_of " " :: rune_of ";" :: rest0).
    apply scanIgnoreWhitespace_space; [reflexivity | discriminate | reflexivity]. }
  cbv beta iota. change (Token_eqb SEMICOLON ILLEGAL || Token_eqb SEMICOLON EOF)
    with false.
  change (Token_eqb SEMICOLON SEMICOLON) with true. cbv iota.
  eapply bind_step.
  { rewrite (Hext _ (NewParser rest0)); [exact Hrec | reflexivity ..]. }
  reflexivity.
Qed.

(** An error in what follows a semicolon is the error of the whole
    program, wrapped, and no expression is returned, whatever was parsed
    before the semicolon.  In particular a semicolon at the end of the input
    is an error. *)
Theorem Parse_sequence_error n dec rest0 ex2 e p2 :
  0 <= n <= maxInt ->
  Parse (NewParser rest0) = Some ((ex2, Some e), p2) ->
  Parse (NewParser (incr_text n dec ++ runes " ;" ++ rest0))
  = Some ((None, Some (Wrap "no valid expression after semicolon: %s" e)), p2).
Proof.
  intros Hn Hrest. rewrite (Parse_incr_suffix n dec _ Hn).
  apply (Parse_after_semicolon_error _ _ _ _ _ _ _ ex2).
  - unfold Parse in Hrest. apply bind_inv in Hrest as (p & p' & Hget & Hrest).
    injection Hget as <- <-.
    refine (Parse_fuel_mono _ _ _ _ _ Hrest).
    cbn [rest r s NewParser NewScanner NewReader].
    rewrite !length_app. change (length (runes " ;")) with 2%nat. lia.
  - intros p p'. apply Parse_fuel_ext.
Qed.

Lemma Parse_sequence_error_witness :
  Parse (NewParser (runes "x1 := x1 + 1 ;"))
  = Some ((None,
           Some (Wrap "no valid expression after semicolon: %s"
                   (Wrap "error tokenizing: %s"
                      (Wrap "error reading next character: %s" io_EOF)))),
          parser_at [] None ILLEGAL [] 0).
Proof.
  assert (H1 : 0 <= 1 <= maxInt) by (vm_compute; split; discriminate).
  exact (Parse_sequence_error 1 false [] None _ _ H1 eq_refl).
Defined.

(** After an increment, a token ILLEGAL or EOF ends the parse with the
    increment and no error, also when the scanner returned an error with the
    token: a malformed token or a rune that starts no token, and all that
    follows it, is ignored. *)
Theorem Parse_stops_at_illegal n dec suffix tok lit err p2 :
  0 <= n <= maxInt ->
  scanIgnoreWhitespace (NewParser suffix) = Some ((tok, lit, err), p2) ->
  tok = ILLEGAL \/ tok = EOF ->
  Parse (NewParser (incr_text n dec ++ suffix))
  = Some ((Some (makeIncrExpr n dec), None), p2).
Proof.
  intros Hn Hscan Htok.
  rewrite (Parse_incr_suffix n dec suffix Hn). unfold Parse_after.
  eapply bind_step.
  { rewrite (scanIgnoreWhitespace_ext _ (NewParser suffix));
      [exact Hscan | reflexivity ..]. }
  cbv beta iota. destruct Htok as [-> | ->]; reflexivity.
Qed.

Lemma Parse_stops_at_illegal_witness :
  Parse (NewParser (runes "x1 := x1 + 1 :x2 := x2 + 1"))
  = Some ((Some (makeIncrExpr 1 false), None),
          parser_at (runes "2 := x2 + 1") (Some (rune_of "x")) ILLEGAL [] 0).
Proof.
  assert (H1 : 0 <= 1 <= maxInt) by (vm_compute; split; discriminate).
  exact (Parse_stops_at_illegal 1 false (runes " :x2 := x2 + 1") ILLEGAL []
           (Some (ErrUnexpectedString (runes ":"))) _ H1 eq_refl
           (or_introl eq_refl)).
Defined.

(** ** Inputs that are errors *)

(** A variable without digits is an error of [Parse]: [strconv.Atoi]
    refuses the empty index. *)
Theorem Parse_variable_without_index g0 t :
  Forall (fun c => isWhitespace c = true) g0 ->
  stops isDigit t ->
  option_map fst (Parse (NewParser (g0 ++ rune_of "x" :: t)))
  = Some (None,
          Some (Wrap "error parsing variable number: %s" (NumError ErrSyntax []))).
Proof.
  intros Hg0 Ht.
  enough (exists p',
             Parse (NewParser (g0 ++ rune_of "x" :: t))
             = Some ((None,
                      Some (Wrap "error parsing variable number: %s"
                              (NumError ErrSyntax []))), p'))
    as [p' ->] by reflexivity.
  eexists. unfold Parse. eapply bind_step; [reflexivity|]. cbv beta.
  cbn [Parse_fuel].
  eapply bind_step.
  { apply (scanIgnoreWhitespace_gap g0 (rune_of "x") t None ILLEGAL []);
      [exact Hg0 | reflexivity | discriminate |
       | change (rune_of "x" :: t) with (rune_of "x" :: [] ++ t);
         rewrite (Scan_variable [] t None ltac:(constructor) Ht);
         rewrite (scanner_at_eta (after_run t)); reflexivity].
    discriminate. }
  cbv beta iota. change (Token_eqb VARIABLE VARIABLE) with true. cbv iota.
  eapply bind_step; [reflexivity|].
  eapply bind_step; [reflexivity|]. reflexivity.
Qed.

Lemma Parse_variable_without_index_witness :
  option_map fst (Parse (NewParser (runes " x := x + 1")))
  = Some (None,
          Some (Wrap "error parsing variable number: %s" (NumError ErrSyntax []))).
Proof.
  apply (Parse_variable_without_index (runes " ") (runes " := x + 1")).
  - repeat constructor.
  - reflexivity.
Defined.

(** The empty input and an input of whitespace only are errors of [Parse]:
    the end of the input is an error of the scanner. *)
Theorem Parse_blank g :
  Forall (fun c => isWhitespace c = true) g ->
  option_map fst (Parse (NewParser g))
  = Some (None,
          Some (Wrap "error tokenizing: %s"
                  (Wrap "error reading next character: %s" io_EOF))).
Proof.
  intros Hg. destruct g as [|a g]; [reflexivity|].
  inversion Hg as [|? ? Ha Hg']; subst.
  enough (exists p',
             Parse (NewParser (a :: g))
             = Some ((None,
                      Some (Wrap "error tokenizing: %s"
                              (Wrap "error reading next character: %s" io_EOF))),
                     p'))
    as [p' ->] by reflexivity.
  eexists. unfold Parse. eapply bind_step; [reflexivity|]. cbv beta.
  cbn [Parse_fuel].
  eapply bind_step.
  { unfold scanIgnoreWhitespace. eapply bind_step.
    - apply (scan_empty_buffer (a :: g) None ILLEGAL []).
      rewrite <- (app_nil_r g) at 1.
      apply (Scan_whitespace a g [] None Ha Hg' I).
    - reflexivity. }
  reflexivity.
Qed.

Lemma Parse_blank_witness :
  option_map fst (Parse (NewParser (runes "   ")))
  = Some (None,
          Some (Wrap "error tokenizing: %s"
                  (Wrap "error reading next character: %s" io_EOF))).
Proof. apply (Parse_blank (runes "   ")). repeat constructor. Defined.

(** ** What the parser returns *)

Lemma Parse_after_error rec ex1 expr p res e p' :
  Parse_after rec ex1 expr p = Some ((res, Some e), p') -> res = None.
Proof.
  intros H. unfold Parse_after in H.
  apply bind_inv in H as ([[tok lit] err] & p1 & _ & H).
  destruct (Token_eqb tok ILLEGAL || Token_eqb tok EOF); [discriminate H|].
  destruct err; [injection H as <- _ _; reflexivity|].
  destruct (Token_eqb tok SEMICOLON); [|discriminate H].
  apply bind_inv in H as ([ex2 err2] & p2 & _ & H).
  destruct err2; [injection H as <- _ _; reflexivity | discriminate H].
Qed.

Ltac ret_now H :=
  injection H as <- <- _; split; intros; first [discriminate | congruence].

Lemma parseIncr_node_or_error p node err p' :
  parseIncr p = Some ((node, err), p') -> (node = None <-> err <> None).
Proof.
  intros H. unfold parseIncr in H.
  apply bind_inv in H as ([[tok1 lit1] err1] & p1 & _ & H).
  destruct err1; [ret_now H|].
  destruct (Token_eqb tok1 VARIABLE); cbn [negb] in H; [|ret_now H].
  destruct (Atoi (TrimPrefix_x lit1)) as [a [e|]]; [ret_now H|].
  apply bind_inv in H as ([[tok2 lit2] err2] & p2 & _ & H).
  destruct err2; [ret_now H|].
  destruct (Token_eqb tok2 ASSIGN); cbn [negb] in H; [|ret_now H].
  apply bind_inv in H as ([[tok3 lit3] err3] & p3 & _ & H).
  destruct err3; [ret_now H|].
  destruct (Token_eqb tok3 VARIABLE); cbn [negb] in H; [|ret_now H].
  destruct (Atoi (TrimPrefix_x lit3)) as [b [e|]]; [ret_now H|].
  destruct (a =? b); cbn [negb] in H; [|ret_now H].
  apply bind_inv in H as ([[tok4 lit4] err4] & p4 & _ & H).
  destruct err4; [ret_now H|].
  destruct tok4; try ret_now H;
    apply bind_inv in H as ([[tok5 lit5] err5] & p5 & _ & H);
    (destruct err5; [ret_now H|]);
    destruct (negb (Token_eqb tok5 CONSTANT) || negb (lit_eqb lit5 (runes "1")));
    ret_now H.
Qed.

(** [parseIncr] returns a node or an error, and never both or neither;
    [Parse] never returns an expression together with an error. *)
Theorem result_or_error p :
  (forall node err p',
     parseIncr p = Some ((node, err), p') -> (node = None <-> err <> None))
  /\ (forall expr err p',
        Parse p = Some ((expr, err), p') -> err <> None -> expr = None).
Proof.
  split; [intros node err p'; apply parseIncr_node_or_error|].
  intros expr err p' H Herr. destruct err as [e|]; [|contradiction].
  unfold Parse in H. apply bind_inv in H as (p0 & p1 & Hget & H).
  injection Hget as <- <-. cbn [Parse_fuel] in H.
  apply bind_inv in H as ([[tok lit] err1] & p1 & _ & H).
  destruct err1; [injection H as <- _ _; reflexivity|].
  destruct (Token_eqb tok VARIABLE).
  - apply bind_inv in H as ([] & p2 & _ & H).
    apply bind_inv in H as ([incExpr err2] & p3 & _ & H).
    destruct err2; [injection H as <- _ _; reflexivity|].
    apply (Parse_after_error _ _ _ _ _ _ _ H).
  - apply (Parse_after_error _ _ _ _ _ _ _ H).
Qed.

Lemma result_or_error_witness :
  (@None IncrExpr = None <-> Some (ErrIndexMismatch 1 2) <> None)
  /\ (Some (ErrIndexMismatch 1 2) <> None -> @None Expr = None).
Proof.
  split.
  - exact (proj1 (result_or_error (NewParser (runes "x1 := x2 + 1")))
             None (Some (ErrIndexMismatch 1 2)) _ eq_refl).
  - exact (proj2 (result_or_error (NewParser (runes "x1 := x2 + 1")))
             None (Some (ErrIndexMismatch 1 2)) _ eq_refl).
Defined.

(** The index that [strconv.Atoi] reads from digits fits [int]. *)
Lemma Atoi_digits_range ds v :
  Forall (fun c => isDigit c = true) ds ->
  Atoi ds = (v, None) -> 0 <= v <= maxInt.
Proof.
  intros Hds H. destruct ds as [|c t]; [discriminate H|].
  pose proof (ParseUint_loop_digits (c :: t) 0 Hds
                ltac:(unfold maxUint64; lia)) as HP.
  pose proof (digit_step_mono (c :: t) 0 Hds ltac:(lia)) as Hmono.
  inversion Hds as [|? ? Hc _]; subst. apply isDigit_spec in Hc.
  unfold Atoi in H. change (rune_of "-") with 45 in H.
  change (rune_of "+") with 43 in H.
  destruct (Z.eqb_spec c 45); [lia|]. destruct (Z.eqb_spec c 43); [lia|].
  cbn [orb negb andb] in H. rewrite HP in H.
  destruct (fold_left digit_step (c :: t) 0 >? maxUint64); [discriminate H|].
  destruct (Z.gtb_spec (fold_left digit_step (c :: t) 0) maxInt);
    [discriminate H|].
  assert (Hv : v = fold_left digit_step (c :: t) 0) by congruence.
  rewrite Hv. lia.
Qed.

Lemma scan_variable p tok lit err p' :
  buf_n p = 0 \/ variable_buffer p ->
  scan p = Some ((tok, lit, err), p') ->
  variable_buffer p'
  /\ (tok = VARIABLE ->
      exists ds, lit = rune_of "x" :: ds /\ Forall (fun c => isDigit c = true) ds).
Proof.
  intros Hp H.
  assert (Hlit : tok = VARIABLE ->
                 exists ds, lit = rune_of "x" :: ds
                            /\ Forall (fun c => isDigit c = true) ds).
  { destruct (Z.eq_dec (buf_n p) 0) as [Hn|Hn].
    - destruct (scan_empty_inv _ _ _ _ _ Hn H) as [HScan _].
      rewrite (scanner_at_eta (s p)) in HScan. apply Scan_full_inv in HScan.
      cbn [scan_full] in HScan. destruct err as [e|].
      + destruct HScan as [-> _]. discriminate.
      + destruct HScan as (z & _ & _ & _ & _ & _ & _ & Hvar & _). exact Hvar.
    - destruct Hp as [Hp|Hp]; [contradiction|].
      unfold scan in H. destruct (Z.eqb_spec (buf_n p) 0); [contradiction|].
      cbn [negb] in H. injection H as <- <- _ _. exact Hp. }
  split; [|exact Hlit].
  destruct (scan_total p) as (res & p0 & H' & Hpost).
  rewrite H in H'. injection H' as <- <-.
  destruct Hpost as (_ & _ & Htok & Hl & _).
  unfold variable_buffer. rewrite Htok, Hl. exact Hlit.
Qed.

Lemma scanIgnoreWhitespace_variable p tok lit err p' :
  buf_n p = 0 \/ variable_buffer p ->
  scanIgnoreWhitespace p = Some ((tok, lit, err), p') ->
  variable_buffer p' /\ buf_n p' = 0
  /\ (tok = VARIABLE ->
      exists ds, lit = rune_of "x" :: ds /\ Forall (fun c => isDigit c = true) ds).
Proof.
  intros Hp H.
  destruct (scanIgnoreWhitespace_buffer _ _ _ _ _ H) as (Hn & _).
  unfold scanIgnoreWhitespace in H.
  apply bind_inv in H as ([[tok1 lit1] err1] & p1 & H1 & H).
  destruct (scan_variable _ _ _ _ _ Hp H1) as [Hvb Hlit].
  destruct err1; [injection H as <- <- _ <-; auto|].
  destruct tok1; try (injection H as <- <- _ <-; auto; fail).
  destruct (scan_variable _ _ _ _ _ (or_intror Hvb) H) as [Hvb2 Hlit2]. auto.
Qed.

Lemma parseIncr_index_range p node err p' :
  buf_n p = 0 \/ variable_buffer p ->
  parseIncr p = Some ((Some node, err), p') ->
  0 <= incr_Variable node <= maxInt.
Proof.
  intros Hp H.
  destruct (parseIncr_node _ _ _ _ H)
    as (lit1 & p1 & lit2 & p2 & lit3 & p3 & H1 & _ & _ & Ha & _).
  destruct (scanIgnoreWhitespace_variable _ _ _ _ _ Hp H1) as (_ & _ & Hlit).
  destruct (Hlit eq_refl) as (ds & -> & Hds).
  change (TrimPrefix_x (rune_of "x" :: ds)) with ds in Ha.
  apply (Atoi_digits_range ds _ Hds Ha).
Qed.

Lemma Parse_after_parsed rec ex1 expr p e err p' :
  buf_n p = 0 ->
  (forall p0 e0 err0 p0', buf_n p0 = 0 ->
     rec p0 = Some ((Some e0, err0), p0') -> parsed e0) ->
  (ex1 = Expr_zero
   \/ exists v dec, 0 <= v <= maxInt /\ ex1 = makeIncrExpr v dec) ->
  (forall e0, expr = Some e0 -> parsed e0) ->
  Parse_after rec ex1 expr p = Some ((Some e, err), p') ->
  parsed e.
Proof.
  intros Hn Hrec Hex1 Hexpr H. unfold Parse_after in H.
  apply bind_inv in H as ([[tok lit] err1] & p1 & H1 & H).
  destruct (scanIgnoreWhitespace_buffer _ _ _ _ _ H1) as (Hn1 & _).
  destruct (Token_eqb tok ILLEGAL || Token_eqb tok EOF).
  { injection H as -> _ _. apply Hexpr. reflexivity. }
  destruct err1; [discriminate H|].
  destruct (Token_eqb tok SEMICOLON).
  2: { injection H as -> _ _. apply Hexpr. reflexivity. }
  apply bind_inv in H as ([ex2 err2] & p2 & H2 & H).
  destruct err2; [discriminate H|]. injection H as <- _ _.
  apply parsed_seq; [exact Hex1|].
  intros e2 ->. apply (Hrec _ _ _ _ Hn1 H2).
Qed.

Lemma Parse_fuel_parsed fuel : forall p e err p',
  buf_n p = 0 ->
  Parse_fuel fuel p = Some ((Some e, err), p') -> parsed e.
Proof.
  induction fuel as [|fuel IH]; intros p e err p' Hn H; [discriminate H|].
  cbn [Parse_fuel] in H.
  apply bind_inv in H as ([[tok lit] err1] & p1 & H1 & H).
  destruct (scanIgnoreWhitespace_variable _ _ _ _ _ (or_introl Hn) H1)
    as (Hvb1 & Hn1 & _).
  destruct err1; [discriminate H|].
  destruct (Token_eqb tok VARIABLE).
  - apply bind_inv in H as ([] & p2 & Hu & H).
    injection Hu as <-.
    apply bind_inv in H as ([incExpr err2] & p3 & Hincr & H).
    destruct err2; [discriminate H|].
    destruct (parseIncr_total
                {| s := s p1; buf_tok := buf_tok p1; buf_lit := buf_lit p1;
                   buf_n := 1 |}) as (res & p3' & Hincr' & _ & Hn3).
    rewrite Hincr in Hincr'. injection Hincr' as <- <-.
    destruct incExpr as [[v dec]|].
    2: { apply parseIncr_node_or_error in Hincr.
         exfalso. apply (proj1 Hincr); reflexivity. }
    assert (Hvb1' : variable_buffer
                      {| s := s p1; buf_tok := buf_tok p1; buf_lit := buf_lit p1;
                         buf_n := 1 |}) by exact Hvb1.
    pose proof (parseIncr_index_range _ _ _ _ (or_intror Hvb1') Hincr) as Hv.
    cbn [incr_Variable] in Hv.
    refine (Parse_after_parsed _ _ _ _ _ _ _ Hn3 IH _ _ H).
    + right. exists v, dec. split; [exact Hv | reflexivity].
    + intros e0 [= <-]. apply (parsed_incr v dec Hv).
  - refine (Parse_after_parsed _ _ _ _ _ _ _ Hn1 IH _ _ H).
    + left. reflexivity.
    + intros e0 [=].
Qed.

(** Every expression that [Parse] returns from a parser with an empty
    buffer is well formed: its tag says which field is set, every index of
    an increment is between 0 and the largest [int], the first child of a
    sequence is an increment or the zero [Expr], and no node is a
    WHILE_EXPR. *)
Theorem Parse_parsed p e err p' :
  buf_n p = 0 ->
  Parse p = Some ((Some e, err), p') -> parsed e.
Proof.
  intros Hn H. unfold Parse in H.
  apply bind_inv in H as (p0 & p1 & Hget & H). injection Hget as <- <-.
  apply (Parse_fuel_parsed _ _ _ _ _ Hn H).
Qed.

Lemma Parse_parsed_witness :
  parsed (makeSeqExpr (Some Expr_zero) (Some (makeIncrExpr 1 false))).
Proof.
  exact (Parse_parsed (NewParser (runes "WHILE ; x1 := x1 + 1")) _ None _
           eq_refl eq_refl).
Defined.
